(** * Session lifecycle and streaming coordinator of the chat backend

    A shallow embedding of [services/chat/SessionManager.js],
    [services/chat/SuggestionGenerator.js] and [services/chat/index.js]
    (the [ChatService]), with the properties of the session core stated
    over it. Around the core it also covers the assistant manager, the
    adapter that builds one chat service per connection, and the pagination
    loops of the listing scrapers with the manual trigger of [server.js].

    Conventions of the embedding:
    - the [Map] held by [SessionManager.sessions] is an insertion-ordered
      association list ([JsMap]); a session object is mutated in place, which
      is a [JsMap.set] at a key that is already present (the entry keeps its
      position);
    - the timers of the event loop are a finite map from handles to the
      argument of the pending callback and its due time; a handle is live
      exactly while it is in that map;
    - [Date.now()], [uuidv4()] and the answers of the remote services are
      inputs of the operations that consult them;
    - an [async] method is run to completion with the outcome of each awaited
      remote call given as an input;
    - the scrapers see the site through functions from a URL to what the
      request (and the HTML extraction) returned; a loop without a bound of
      its own takes fuel, one unit per iteration. *)

From stdpp Require Import gmap strings list fin_maps.
From Stdlib Require Import ZArith Lia DecimalString.

Set Warnings "-register-all".

(** ** JavaScript [Map] with string keys, in insertion order *)

Module JsMap.
Section Ops.
Context {V : Type}.

Fixpoint get (k : string) (m : list (string * V)) : option V :=
  match m with
  | [] => None
  | (k', v) :: m' => if decide (k = k') then Some v else get k m'
  end.

Definition has (k : string) (m : list (string * V)) : bool :=
  match get k m with Some _ => true | None => false end.

(** [m.set(k, v)]: an existing key keeps its place, a new one goes last. *)
Fixpoint set (k : string) (v : V) (m : list (string * V)) : list (string * V) :=
  match m with
  | [] => [(k, v)]
  | (k', v') :: m' =>
      if decide (k = k') then (k, v) :: m' else (k', v') :: set k v m'
  end.

(** [m.delete(k)] *)
Fixpoint delete (k : string) (m : list (string * V)) : list (string * V) :=
  match m with
  | [] => []
  | (k', v') :: m' =>
      if decide (k = k') then delete k m' else (k', v') :: delete k m'
  end.

End Ops.
End JsMap.

(** ** services/chat/SessionManager.js *)

(** 30 minutes, in milliseconds. *)
Definition SESSION_TIMEOUT : Z := 30 * 60 * 1000.

Inductive Status := active | pending_deletion.

Definition is_active (s : Status) : bool :=
  match s with active => true | pending_deletion => false end.

Definition is_pending (s : Status) : bool :=
  match s with active => false | pending_deletion => true end.

(** The session object. [threadId] is [null] or a string, [timeoutId] is
    [null] or the handle [setTimeout] returned. *)
Record Session := mkSession {
  threadId : option string;
  lastActive : Z;
  timeoutId : option nat;
  status : Status
}.

Definition with_threadId (t : option string) (s : Session) : Session :=
  mkSession t (lastActive s) (timeoutId s) (status s).
Definition with_lastActive (t : Z) (s : Session) : Session :=
  mkSession (threadId s) t (timeoutId s) (status s).
Definition with_timeoutId (h : option nat) (s : Session) : Session :=
  mkSession (threadId s) (lastActive s) h (status s).
Definition with_status (x : Status) (s : Session) : Session :=
  mkSession (threadId s) (lastActive s) (timeoutId s) x.

(** A pending [setTimeout(() => this.cleanupCallback(sessionId), delay)]. *)
Record Timer := mkTimer {
  timer_arg : string;
  timer_due : Z
}.

(** The session manager together with the part of the host it touches:
    the pending timers, the next handle and the clock. *)
Record State := mkState {
  sessions : list (string * Session);
  timers : gmap nat Timer;
  next_handle : nat;
  now : Z
}.

Definition init : State := mkState [] ∅ 0 0.

Definition set_sessions (f : list (string * Session) -> list (string * Session))
    (st : State) : State :=
  mkState (f (sessions st)) (timers st) (next_handle st) (now st).

(** Assignment to a field of the session object stored under [k]. *)
Definition put (k : string) (s : Session) (st : State) : State :=
  set_sessions (JsMap.set k s) st.

(** [setTimeout]: a fresh handle, live until cleared or fired. *)
Definition setTimeout (arg : string) (delay : Z) (st : State) : nat * State :=
  let h := next_handle st in
  (h, mkState (sessions st) (<[h := mkTimer arg (now st + delay)]> (timers st))
        (S h) (now st)).

(** [clearTimeout]: no effect on a handle that fired or was cleared. *)
Definition clearTimeout (h : nat) (st : State) : State :=
  mkState (sessions st) (delete h (timers st)) (next_handle st) (now st).

Definition createSession (uuid : string) (st : State) : string * State :=
  let session := mkSession None (now st) None active in
  (uuid, put uuid session st).

Definition getSession (st : State) (sessionId : string) : option Session :=
  JsMap.get sessionId (sessions st).

Definition hasSession (st : State) (sessionId : string) : bool :=
  JsMap.has sessionId (sessions st) &&
  match getSession st sessionId with
  | Some s => is_active (status s)
  | None => false
  end.

Definition scheduleCleanup (sessionId : string) (st : State) : State :=
  match getSession st sessionId with
  | None => st
  | Some session =>
      if negb (is_active (status session)) then st
      else
        let st1 := match timeoutId session with
                   | Some h => clearTimeout h st
                   | None => st
                   end in
        let '(h, st2) := setTimeout sessionId SESSION_TIMEOUT st1 in
        put sessionId (with_timeoutId (Some h) session) st2
  end.

Definition refreshSession (sessionId : string) (st : State)
    : option Session * State :=
  match getSession st sessionId with
  | None => (None, st)
  | Some session =>
      if negb (is_active (status session)) then (None, st)
      else
        let session1 := with_lastActive (now st) session in
        let st1 := put sessionId session1 st in
        let st2 := match timeoutId session1 with
                   | Some h =>
                       put sessionId (with_timeoutId None session1)
                         (clearTimeout h st1)
                   | None => st1
                   end in
        let st3 := scheduleCleanup sessionId st2 in
        (getSession st3 sessionId, st3)
  end.

Definition markSessionForDeletion (sessionId : string) (st : State)
    : bool * State :=
  match getSession st sessionId with
  | None => (false, st)
  | Some session => (true, put sessionId (with_status pending_deletion session) st)
  end.

Definition deleteSession (sessionId : string) (st : State) : State :=
  let st1 := match getSession st sessionId with
             | Some session =>
                 match timeoutId session with
                 | Some h => clearTimeout h st
                 | None => st
                 end
             | None => st
             end in
  set_sessions (JsMap.delete sessionId) st1.

(** The condition of the [if] in the loop of [getExpiredSessions]. *)
Definition expired (t : Z) (session : Session) : bool :=
  is_pending (status session) ||
  ((t - lastActive session >? SESSION_TIMEOUT)%Z && is_active (status session)).

(** The [for ... of this.sessions.entries()] loop with its [push]. *)
Fixpoint expired_loop (t : Z) (entries : list (string * Session))
    (expiredSessions : list string) : list string :=
  match entries with
  | [] => expiredSessions
  | (sessionId, session) :: rest =>
      expired_loop t rest
        (if expired t session then expiredSessions ++ [sessionId]
         else expiredSessions)
  end.

Definition getExpiredSessions (st : State) : list string :=
  expired_loop (now st) (sessions st) [].

(** ** services/chat/SuggestionGenerator.js *)

(** Values that [JSON.parse] can return, and [undefined]. *)
Inductive JsVal :=
  | JUndefined
  | JNull
  | JBool (b : bool)
  | JNum (n : Z)
  | JStr (s : string)
  | JArr (items : list JsVal)
  | JObj (fields : list (string * JsVal)).

(** What the chat-completion call and the parse of its content gave:
    the call rejected (or the reply had no [choices[0].message]), or it
    returned a content string on which [JSON.parse] threw ([None]) or
    returned a value. *)
Inductive Completion :=
  | CompletionRejects
  | CompletionContent (parsed : option JsVal).

Inductive Thrown := SyntaxError | TypeError | ApiError.

(** [suggestionsJson.quick_replies]: a [TypeError] on [null], the field of
    an object, [undefined] on anything else. *)
Definition quick_replies (suggestionsJson : JsVal) : Thrown + JsVal :=
  match suggestionsJson with
  | JNull | JUndefined => inl TypeError
  | JObj fields =>
      match JsMap.get "quick_replies" fields with
      | Some v => inr v
      | None => inr JUndefined
      end
  | _ => inr JUndefined
  end.

(** The [try] block of [generate]. *)
Definition generate_try (c : Completion) : Thrown + JsVal :=
  match c with
  | CompletionRejects => inl ApiError
  | CompletionContent None => inl SyntaxError
  | CompletionContent (Some suggestionsJson) => quick_replies suggestionsJson
  end.

(** [generate]: the [catch] logs and returns an empty array, so the promise
    always resolves. The prompt and the response only reach the remote call. *)
Definition generate (c : Completion) (prompt response : string) : Thrown + JsVal :=
  match generate_try c with
  | inr v => inr v
  | inl _ => inr (JArr [])
  end.

(** ** services/chat/index.js *)

(** Events sent to the client ([socket.emit]) or to everyone ([io.emit]). *)
Inductive Emit :=
  | session_created (sessionId : string) (info : option string)
  | session_resumed (sessionId : string)
  | error (message : string)
  | textCreated (text : string)
  | textDelta (value snapshot : string)
  | responseComplete
  | suggestions (payload : JsVal)
  | clear_chat (sessionId : string).

(** Events of the run stream, one per registered handler. *)
Inductive StreamEvent :=
  | EvTextCreated (text : string)
  | EvTextDelta (value snapshot : string)
  | EvError
  | EvEnd.

(** Outcome of [openai.beta.threads.del]: resolved, or rejected with an
    error whose [status] field is given ([None] when it has none). *)
Inductive DelOutcome :=
  | DelOk
  | DelError (status : option Z).

(** The remote services as seen during one handler. *)
Record Backend := mkBackend {
  assistants_retrieve : bool;
  threads_create : option string;
  messages_create : bool;
  runs_stream : option (list StreamEvent);
  chat_completion : Completion;
  threads_del : string -> DelOutcome
}.

(** Truthiness of a value that is [null]/[undefined] or a string. *)
Definition truthy (o : option string) : bool :=
  match o with
  | Some s => negb (String.eqb s "")
  | None => false
  end.

(** What a handler did: the events it emitted, in order, the calls it made
    to the suggestion generator, and the state it left. *)
Record Run := mkRun {
  emitted : list Emit;
  generate_calls : list (string * string);
  final : State
}.

(** State of the four stream handlers of one turn. *)
Record Turn := mkTurn {
  fullResponse : string;
  turn_run : Run
}.

Definition emit (e : Emit) (r : Run) : Run :=
  mkRun (emitted r ++ [e]) (generate_calls r) (final r).

(** The handler registered for each stream event. The [async] end handler
    is run in one step, with the clock where the turn found it. *)
Definition on_event (be : Backend) (sessionId prompt : string)
    (t : Turn) (ev : StreamEvent) : Turn :=
  match ev with
  | EvTextCreated text => mkTurn (fullResponse t) (emit (textCreated text) (turn_run t))
  | EvTextDelta value snapshot =>
      mkTurn (fullResponse t ++ value)%string
             (emit (textDelta value snapshot) (turn_run t))
  | EvError =>
      mkTurn (fullResponse t)
             (emit (error "Error during response streaming") (turn_run t))
  | EvEnd =>
      let r1 := emit responseComplete (turn_run t) in
      let r2 := mkRun (emitted r1)
                      (generate_calls r1 ++ [(prompt, fullResponse t)])
                      (final r1) in
      let r3 := match generate (chat_completion be) prompt (fullResponse t) with
                | inr v => emit (suggestions v) r2
                | inl _ => r2
                end in
      mkTurn (fullResponse t)
             (mkRun (emitted r3) (generate_calls r3)
                    (scheduleCleanup sessionId (final r3)))
  end.

Definition consume_stream (be : Backend) (sessionId prompt : string)
    (events : list StreamEvent) (st : State) : Run :=
  turn_run (fold_left (on_event be sessionId prompt) events
                      (mkTurn "" (mkRun [] [] st))).

Definition fail (message : string) (st : State) : Run :=
  mkRun [error message] [] st.

Definition handlePrompt (be : Backend) (sessionId prompt : string) (st : State)
    : Run :=
  match getSession st sessionId with
  | None => fail "Session is no longer active" st
  | Some session =>
      if negb (is_active (status session)) then
        fail "Session is no longer active" st
      else if negb (assistants_retrieve be) then
        fail "Could not retrieve assistant" st
      else
        let bound :=
          if negb (truthy (threadId session)) then
            match threads_create be with
            | Some id => Some (with_threadId (Some id) session)
            | None => None
            end
          else Some session in
        match bound with
        | None => fail "Could not create conversation thread" st
        | Some session1 =>
            let st1 := put sessionId session1 st in
            if negb (messages_create be) then
              fail "Could not add your message" st1
            else
              match runs_stream be with
              | None => fail "Could not generate response" st1
              | Some events => consume_stream be sessionId prompt events st1
              end
        end
  end.

Definition cleanupSession (be : Backend) (sessionId : string) (st : State)
    : Run :=
  match getSession st sessionId with
  | None => mkRun [] [] st
  | Some session =>
      let '(marked, st1) := markSessionForDeletion sessionId st in
      if negb marked then mkRun [] [] st1
      else if truthy (threadId session) then
        match threads_del be (default "" (threadId session)) with
        | DelOk => mkRun [clear_chat sessionId] [] (deleteSession sessionId st1)
        | DelError status =>
            if bool_decide (status = Some 404%Z) then
              mkRun [] [] (deleteSession sessionId st1)
            else mkRun [] [] st1
        end
      else mkRun [] [] (deleteSession sessionId st1)
  end.

(** The sweep: every expired id goes through [cleanupSession], in order. *)
Definition cleanupExpiredSessions (be : Backend) (st : State) : Run :=
  fold_left
    (fun (r : Run) (sessionId : string) =>
       let r' := cleanupSession be sessionId (final r) in
       mkRun (emitted r ++ emitted r') (generate_calls r ++ generate_calls r')
             (final r'))
    (getExpiredSessions st) (mkRun [] [] st).

(** *** Socket handlers; [conn] is the [sessionId] variable of the closure. *)

Definition init_session (uuid : string) (st : State) : option string * Run :=
  let '(sessionId, st1) := createSession uuid st in
  (Some sessionId, mkRun [session_created sessionId None] [] st1).

Definition resume_session (data_sessionId : option string) (uuid : string)
    (conn : option string) (st : State) : option string * Run :=
  if truthy data_sessionId && hasSession st (default "" data_sessionId) then
    let sessionId := default "" data_sessionId in
    let '(session, st1) := refreshSession sessionId st in
    match session with
    | Some _ => (Some sessionId, mkRun [session_resumed sessionId] [] st1)
    | None =>
        let '(sessionId', st2) := createSession uuid st1 in
        (Some sessionId',
         mkRun [session_created sessionId' (Some "Previous session expired")]
               [] st2)
    end
  else
    let '(sessionId, st1) := createSession uuid st in
    (Some sessionId, mkRun [session_created sessionId None] [] st1).

Definition send_prompt (be : Backend) (prompt : string)
    (conn : option string) (st : State) : Run :=
  if negb (truthy conn) || negb (hasSession st (default "" conn)) then
    fail "Invalid session" st
  else
    let sessionId := default "" conn in
    let '(session, st1) := refreshSession sessionId st in
    match session with
    | None => fail "Session expired" st1
    | Some _ => handlePrompt be sessionId prompt st1
    end.

Definition disconnect (conn : option string) (st : State) : State :=
  if truthy conn && hasSession st (default "" conn) then
    scheduleCleanup (default "" conn) st
  else st.

(** *** Vocabulary for the events of one turn *)

(** The stream ends with [EvError] or [EvEnd]. *)
Definition is_terminal (ev : StreamEvent) : bool :=
  match ev with
  | EvError | EvEnd => true
  | _ => false
  end.

(** What the text handlers send for an event. *)
Definition forward_text (ev : StreamEvent) : list Emit :=
  match ev with
  | EvTextCreated text => [textCreated text]
  | EvTextDelta value snapshot => [textDelta value snapshot]
  | _ => []
  end.

(** The concatenation of the fragments of the delta events. *)
Fixpoint reply_text (events : list StreamEvent) : string :=
  match events with
  | [] => ""
  | EvTextDelta value _ :: rest => (value ++ reply_text rest)%string
  | _ :: rest => reply_text rest
  end.

Definition is_error (e : Emit) : bool :=
  match e with error _ => true | _ => false end.

(** The suggestion generator fails: its [try] block throws. *)
Definition generator_fails (c : Completion) : Prop :=
  ∃ x, generate_try c = inl x.

(** The reading of the suggestions event under which it has three entries
    and is left out when the generator fails. *)
Definition suggestions_as_claimed (be : Backend) (r : Run) : Prop :=
  (generator_fails (chat_completion be) ->
     ∀ v, ¬ In (suggestions v) (emitted r)) ∧
  (∀ v, In (suggestions v) (emitted r) -> ∃ a b c, v = JArr [a; b; c]).

(** ** Runs of the service *)

(** [session.threadId = thread.id] on the session object held by a turn:
    it changes the registry when that object is still stored in it. *)
Definition bindThread (sessionId threadId' : string) (st : State) : State :=
  match getSession st sessionId with
  | Some session => put sessionId (with_threadId (Some threadId') session) st
  | None => st
  end.

(** One atomic action on the state: a method of the session manager, a
    method of the chat service, a timer coming due, or time passing. The
    pieces of an [async] method between two [await]s act on the state as
    [OpMark], [OpDelete], [OpBind] or [OpSchedule], so runs also cover the
    handlers interleaved at their [await]s. *)
Inductive Op :=
  | OpCreate (uuid : string)
  | OpRefresh (sessionId : string)
  | OpSchedule (sessionId : string)
  | OpMark (sessionId : string)
  | OpDelete (sessionId : string)
  | OpBind (sessionId threadId' : string)
  | OpPrompt (be : Backend) (sessionId prompt : string)
  | OpCleanup (be : Backend) (sessionId : string)
  | OpSweep (be : Backend)
  | OpFire (be : Backend) (h : nat)
  | OpTick (d : Z).

Definition exec (op : Op) (st : State) : State :=
  match op with
  | OpCreate uuid => snd (createSession uuid st)
  | OpRefresh sessionId => snd (refreshSession sessionId st)
  | OpSchedule sessionId => scheduleCleanup sessionId st
  | OpMark sessionId => snd (markSessionForDeletion sessionId st)
  | OpDelete sessionId => deleteSession sessionId st
  | OpBind sessionId threadId' => bindThread sessionId threadId' st
  | OpPrompt be sessionId prompt => final (handlePrompt be sessionId prompt st)
  | OpCleanup be sessionId => final (cleanupSession be sessionId st)
  | OpSweep be => final (cleanupExpiredSessions be st)
  | OpFire be h =>
      (* the timer leaves the pending set and its callback runs *)
      match timers st !! h with
      | Some tm => final (cleanupSession be (timer_arg tm) (clearTimeout h st))
      | None => st
      end
  | OpTick d => mkState (sessions st) (timers st) (next_handle st) (now st + d)
  end.

(** [uuidv4()] returns an id that is not in use; a timer fires when due;
    the clock does not go back. *)
Definition enabled (st : State) (op : Op) : Prop :=
  match op with
  | OpCreate uuid => getSession st uuid = None
  | OpFire _ h => ∃ tm, timers st !! h = Some tm ∧ (timer_due tm ≤ now st)%Z
  | OpTick d => (0 ≤ d)%Z
  | _ => True
  end.

Inductive reachable : State -> Prop :=
  | reachable_init : reachable init
  | reachable_step st op :
      reachable st -> enabled st op -> reachable (exec op st).

(** Every live timer is the current handle of a session in the registry. *)
Definition timers_owned (st : State) : Prop :=
  ∀ h tm, timers st !! h = Some tm ->
    ∃ s, getSession st (timer_arg tm) = Some s ∧ timeoutId s = Some h.

(** Handles are handed out in increasing order. *)
Definition handles_below (st : State) : Prop :=
  ∀ h tm, timers st !! h = Some tm -> h < next_handle st.

(** No session has two live timers. *)
Definition one_timer_per_session (st : State) : Prop :=
  ∀ h1 h2 tm1 tm2,
    timers st !! h1 = Some tm1 -> timers st !! h2 = Some tm2 ->
    timer_arg tm1 = timer_arg tm2 -> h1 = h2.

(** A live timer belongs to a session whose status is [active]. *)
Definition live_timer_active (st : State) : Prop :=
  ∀ h tm, timers st !! h = Some tm ->
    ∃ s, getSession st (timer_arg tm) = Some s ∧ status s = active.

(** The keys of the map are pairwise distinct. *)
Definition keys_unique (st : State) : Prop := NoDup (map fst (sessions st)).

(** The invariant kept by every operation. *)
Definition Inv (st : State) : Prop := timers_owned st ∧ handles_below st.

(** Every timer of [st'] was already pending in [st], or belongs to a
    session that is active in [st']. *)
Definition arms_for_active (st st' : State) : Prop :=
  ∀ h tm, timers st' !! h = Some tm ->
    timers st !! h = Some tm ∨ hasSession st' (timer_arg tm) = true.

(** ** Example states *)

(** One session, just created. *)
Definition st_created : State := exec (OpCreate "s1") init.
(** The same session after a refresh: its timer is pending. *)
Definition st_armed : State := exec (OpRefresh "s1") st_created.
(** The same session marked for deletion while its timer is pending. *)
Definition st_marked : State := exec (OpMark "s1") st_armed.

(** A backend on which everything succeeds: the reply is streamed in two
    events and the suggestion model answers with three quick replies. *)
Definition be_ok : Backend :=
  mkBackend true (Some "thread_1") true
    (Some [EvTextCreated ""; EvTextDelta "Hi" "Hi"; EvEnd])
    (CompletionContent
       (Some (JObj [("quick_replies", JArr [JStr "a"; JStr "b"; JStr "c"])])))
    (fun _ => DelOk).

Definition with_stream (events : list StreamEvent) (be : Backend) : Backend :=
  mkBackend (assistants_retrieve be) (threads_create be) (messages_create be)
    (Some events) (chat_completion be) (threads_del be).
Definition with_completion (c : Completion) (be : Backend) : Backend :=
  mkBackend (assistants_retrieve be) (threads_create be) (messages_create be)
    (runs_stream be) c (threads_del be).
Definition with_del (d : DelOutcome) (be : Backend) : Backend :=
  mkBackend (assistants_retrieve be) (threads_create be) (messages_create be)
    (runs_stream be) (chat_completion be) (fun _ => d).

(** The session after one completed turn: bound to ["thread_1"]. *)
Definition st_bound : State := exec (OpPrompt be_ok "s1" "hello") st_created.

(** A handle stored in a session was handed out earlier, and the timer
    pending under it, if any, calls back for that very session. *)
Definition handles_exclusive (st : State) : Prop :=
  ∀ k s h, getSession st k = Some s -> timeoutId s = Some h ->
    h < next_handle st ∧
    ∀ tm, timers st !! h = Some tm -> timer_arg tm = k.

(** No session was active in the future, and no timer waits longer than
    the session timeout. *)
Definition clock_sound (st : State) : Prop :=
  (∀ k s, getSession st k = Some s -> (lastActive s ≤ now st)%Z) ∧
  (∀ h tm, timers st !! h = Some tm ->
     (timer_due tm ≤ now st + SESSION_TIMEOUT)%Z).

Definition Sound (st : State) : Prop := handles_exclusive st ∧ clock_sound st.

(** ** services/chat/AssistantManager.js *)

Module AssistantManager.
Section Manager.
(** The assistant object returned by the API. *)
Context {Assistant : Type}.

Definition ASSISTANT_ID : string := "asst_bwx7JzTMDI0T8Px1cgnzNh8a".

Definition getAssistantId (assistant : option Assistant) : string :=
  ASSISTANT_ID.

(** One call of [retrieveAssistant]: what it returned or threw, the
    [this.assistant] field afterwards, and how many times it called
    [openai.beta.assistants.retrieve]. *)
Record Retrieved := mkRetrieved {
  result : Thrown + Assistant;
  cached : option Assistant;
  api_calls : nat
}.

(** [api] is what [openai.beta.assistants.retrieve(ASSISTANT_ID)] would
    answer: an assistant, or a rejection ([None]). *)
Definition retrieveAssistant (api : option Assistant)
    (assistant : option Assistant) : Retrieved :=
  match assistant with
  | Some a => mkRetrieved (inr a) (Some a) 0
  | None =>
      match api with
      | Some a => mkRetrieved (inr a) (Some a) 1
      | None => mkRetrieved (inl ApiError) None 1
      end
  end.

(** Successive calls, each with the answer the API would give then. *)
Fixpoint retrieve_each (apis : list (option Assistant))
    (assistant : option Assistant) : list Retrieved :=
  match apis with
  | [] => []
  | api :: rest =>
      let r := retrieveAssistant api assistant in
      r :: retrieve_each rest (cached r)
  end.
End Manager.
End AssistantManager.

(** ** services/chatService.js and one connection *)

(** What a connection holds: the [sessionId] variable of the handlers'
    closure, the events sent so far, and the state of its chat service. *)
Record Conn := mkConn {
  conn_sessionId : option string;
  conn_out : list Emit;
  conn_state : State
}.

(** The adapter [setupSocketHandlers(socket, openai, io)] builds a new
    [ChatService] for the connection: a session manager with an empty [Map]
    and no timer of its own ([handle0] and [t] are the host's next timer
    handle and clock). *)
Definition setupSocketHandlers (handle0 : nat) (t : Z) : Conn :=
  mkConn None [] (mkState [] ∅ handle0 t).

(** What can happen on a connection: the four socket events, a timer of the
    service coming due, the 15-minute interval, and time passing. *)
Inductive ConnEvent :=
  | on_init_session (uuid : string)
  | on_resume_session (data_sessionId : option string) (uuid : string)
  | on_send_prompt (be : Backend) (prompt : string)
  | on_disconnect
  | on_timeout (be : Backend) (h : nat)
  | on_interval (be : Backend)
  | on_clock (d : Z).

Definition dispatch (c : Conn) (ev : ConnEvent) : Conn :=
  match ev with
  | on_init_session uuid =>
      let '(sessionId, r) := init_session uuid (conn_state c) in
      mkConn sessionId (conn_out c ++ emitted r) (final r)
  | on_resume_session data uuid =>
      let '(sessionId, r) :=
        resume_session data uuid (conn_sessionId c) (conn_state c) in
      mkConn sessionId (conn_out c ++ emitted r) (final r)
  | on_send_prompt be prompt =>
      let r := send_prompt be prompt (conn_sessionId c) (conn_state c) in
      mkConn (conn_sessionId c) (conn_out c ++ emitted r) (final r)
  | on_disconnect =>
      mkConn (conn_sessionId c) (conn_out c)
             (disconnect (conn_sessionId c) (conn_state c))
  | on_timeout be h =>
      match timers (conn_state c) !! h with
      | Some tm =>
          let r := cleanupSession be (timer_arg tm)
                     (clearTimeout h (conn_state c)) in
          mkConn (conn_sessionId c) (conn_out c ++ emitted r) (final r)
      | None => c
      end
  | on_interval be =>
      let r := cleanupExpiredSessions be (conn_state c) in
      mkConn (conn_sessionId c) (conn_out c ++ emitted r) (final r)
  | on_clock d =>
      mkConn (conn_sessionId c) (conn_out c) (exec (OpTick d) (conn_state c))
  end.

(** *** Vocabulary for the extra properties *)

(** The session [k] is active, was last active at [t], and its handle is a
    pending timer due one session timeout from now. *)
Definition armed_at (k : string) (t : Z) (st : State) : Prop :=
  ∃ s h, getSession st k = Some s ∧ status s = active ∧ lastActive s = t ∧
         timeoutId s = Some h ∧
         timers st !! h = Some (mkTimer k (now st + SESSION_TIMEOUT)).

Definition is_text (e : Emit) : bool :=
  match e with textCreated _ | textDelta _ _ => true | _ => false end.

Definition is_end (ev : StreamEvent) : bool :=
  match ev with EvEnd => true | _ => false end.

Definition is_complete (e : Emit) : bool :=
  match e with responseComplete => true | _ => false end.

Definition is_suggestions (e : Emit) : bool :=
  match e with suggestions _ => true | _ => false end.

Definition is_error_event (ev : StreamEvent) : bool :=
  match ev with EvError => true | _ => false end.

(** The events a prompt turn can send. *)
Definition turn_event (e : Emit) : Prop :=
  match e with
  | error _ | textCreated _ | textDelta _ _ | responseComplete
  | suggestions _ => True
  | _ => False
  end.

(** The loop of [cleanupExpiredSessions] started from [r] on the ids [ids]. *)
Definition sweep_from (be : Backend) (ids : list string) (r : Run) : Run :=
  fold_left
    (fun (r : Run) (sessionId : string) =>
       let r' := cleanupSession be sessionId (final r) in
       mkRun (emitted r ++ emitted r') (generate_calls r ++ generate_calls r')
             (final r'))
    ids r.

(** The ids announced by the [session_created] events of [out]. *)
Fixpoint created_ids (out : list Emit) : list string :=
  match out with
  | [] => []
  | session_created sessionId _ :: rest => sessionId :: created_ids rest
  | _ :: rest => created_ids rest
  end.

(** Reading [out] from the start with [seen] the ids announced so far, every
    [session_resumed] names an id announced before it. *)
Fixpoint resumes_known (seen : list string) (out : list Emit) : Prop :=
  match out with
  | [] => True
  | session_created sessionId _ :: rest => resumes_known (sessionId :: seen) rest
  | session_resumed sessionId :: rest =>
      In sessionId seen ∧ resumes_known seen rest
  | _ :: rest => resumes_known seen rest
  end.

(** Events other than [session_created] and [session_resumed]. *)
Definition not_session_event (e : Emit) : Prop :=
  match e with
  | session_created _ _ | session_resumed _ => False
  | _ => True
  end.

(** What holds of a connection after any sequence of events: the resumes
    sent so far name ids announced before them, and every id in the registry
    of its service was announced on it. *)
Definition conn_sound (c : Conn) : Prop :=
  resumes_known [] (conn_out c) ∧
  ∀ k, is_Some (getSession (conn_state c) k) -> In k (created_ids (conn_out c)).

(** ** The listing scrapers *)

(** [currentPage === 1 ? base : `${base}?_pg=${currentPage}`] *)
Definition pageUrl (base : string) (currentPage : nat) : string :=
  if Nat.eqb currentPage 1 then base
  else (base ++ "?_pg=" ++ NilEmpty.string_of_uint (Nat.to_uint currentPage))%string.

(** *** services/scraperService.js (and backend/real.js): pages until SOLD *)

Module ScraperService.
Section Pages.
Context {Listing : Type}.
(** [scrapePage(pageUrl)]: the listings of the page and whether one of them
    is sold; it catches its own failures and then answers with no listing. *)
Variable scrapePage : string -> list Listing * bool.

Definition baseUrl : string := "https://dorisgee.com/mylistings.html".

(** The [while (!foundSold)] loop, entered with [foundSold] false. Each
    unit of [fuel] pays for one iteration; [None] means the loop is still
    running when the fuel is spent. *)
Fixpoint scrape_while (fuel currentPage : nat) (allListings : list Listing)
    : option (list Listing) :=
  match fuel with
  | 0 => None
  | S fuel' =>
      let '(listings, soldOnPage) := scrapePage (pageUrl baseUrl currentPage) in
      if Nat.eqb (length listings) 0 then Some allListings
      else
        let allListings' := allListings ++ listings in
        if soldOnPage then Some allListings'
        else scrape_while fuel' (S currentPage) allListings'
  end.

Definition scrapeAllListings (fuel : nat) : option (list Listing) :=
  scrape_while fuel 1 [].

(** [runScraper]: uploads when there is something to upload; [upload] is
    what [uploadListingsToVectorStore] returns or throws. The result is the
    object [{ listings, uploadResult }] or [{ listings: [] }]. *)
Definition runScraper (listings : list JsVal) (upload : Thrown + JsVal)
    : Thrown + JsVal :=
  if Nat.ltb 0 (length listings) then
    match upload with
    | inr uploadResult =>
        inr (JObj [("listings", JArr listings); ("uploadResult", uploadResult)])
    | inl e => inl e
    end
  else inr (JObj [("listings", JArr [])]).
End Pages.
End ScraperService.

(** *** server.js: the manual trigger *)

(** [value.length]: the length of an array, a property of an object,
    [undefined] on the other values handled here, a [TypeError] on [null]
    and [undefined]. *)
Definition get_length (value : JsVal) : Thrown + JsVal :=
  match value with
  | JNull | JUndefined => inl TypeError
  | JArr items => inr (JNum (Z.of_nat (length items)))
  | JObj fields =>
      match JsMap.get "length" fields with
      | Some v => inr v
      | None => inr JUndefined
      end
  | _ => inr JUndefined
  end.

(** The answer of [POST /api/scrape]: the HTTP status and, on success, the
    value interpolated in [`Scraped ${listings.length} listings`]. *)
Record ScrapeResponse := mkScrapeResponse {
  http_status : Z;
  scraped_count : option JsVal
}.

Definition api_scrape (listings : list JsVal) (upload : Thrown + JsVal)
    : ScrapeResponse :=
  match ScraperService.runScraper listings upload with
  | inr result =>
      match get_length result with
      | inr count => mkScrapeResponse 200 (Some count)
      | inl _ => mkScrapeResponse 500 None
      end
  | inl _ => mkScrapeResponse 500 None
  end.

(** *** src/index.js: a bounded number of pages, then every listing *)

Module ScraperIndex.
Definition BASE_URL : string := "https://dorisgee.com".
Definition LISTINGS_URL : string := (BASE_URL ++ "/mylistings.html")%string.

(** The full URL built in [extractListingUrls] from a non-empty [href]. *)
Definition fullUrl (href : string) : string :=
  if String.prefix "http" href then href
  else (BASE_URL ++ (if String.prefix "/" href then "" else "/") ++ href)%string.

Section Site.
(** What [extractListingData] returns besides the url. *)
Context {Data : Type}.
(** [fetchHtml(url)]: the body, or [null] after a failed request. *)
Variable fetchHtml : string -> option string.
Variable extractListingUrls : string -> list string.
Variable extractListingData : string -> string -> Data.

(** An element of the result: [extractListingData]'s object, or
    [{ url, error: 'Failed to fetch HTML' }]. *)
Record Entry := mkEntry {
  entry_url : string;
  entry_body : option Data
}.

(** The pagination loop [while (hasNextPage && currentPage <= maxPages)];
    [remaining] is [maxPages + 1 - currentPage]. It returns the listing URLs
    collected and the page URLs it requested. *)
Fixpoint collect (remaining currentPage : nat) (allListingUrls : list string)
    (requested : list string) : list string * list string :=
  match remaining with
  | 0 => (allListingUrls, requested)
  | S remaining' =>
      let url := pageUrl LISTINGS_URL currentPage in
      let requested' := requested ++ [url] in
      let html := fetchHtml url in
      if negb (truthy html) then (allListingUrls, requested')
      else
        let listingUrls := extractListingUrls (default "" html) in
        if Nat.eqb (length listingUrls) 0 then (allListingUrls, requested')
        else collect remaining' (S currentPage)
               (allListingUrls ++ listingUrls) requested'
  end.

(** The body of the [for (const url of allListingUrls)] loop. *)
Definition scrape_listing (url : string) : Entry :=
  let html := fetchHtml url in
  if truthy html then mkEntry url (Some (extractListingData (default "" html) url))
  else mkEntry url None.

(** [scrapeAllListings(maxPages)]: the entries, and the page URLs
    requested while collecting. *)
Definition scrapeAllListings (maxPages : nat) : list Entry * list string :=
  let '(allListingUrls, requested) := collect maxPages 1 [] [] in
  (map scrape_listing allListingUrls, requested).
End Site.
End ScraperIndex.

(** ** Lemmas on the map *)

Section JsMapFacts.
Context {V : Type}.
Implicit Types (m : list (string * V)) (k : string) (v : V).

Lemma get_set m k k' v :
  JsMap.get k' (JsMap.set k v m) =
  if decide (k' = k) then Some v else JsMap.get k' m.
Proof.
  induction m as [|[k0 v0] m IH]; simpl.
  - repeat case_decide; congruence.
  - repeat (case_decide; simpl); subst; try congruence;
      rewrite IH; case_decide; congruence.
Qed.

Lemma get_delete m k k' :
  JsMap.get k' (JsMap.delete k m) =
  if decide (k' = k) then None else JsMap.get k' m.
Proof.
  induction m as [|[k0 v0] m IH]; simpl.
  - case_decide; reflexivity.
  - repeat (case_decide; simpl); subst; try congruence;
      rewrite IH; case_decide; congruence.
Qed.

Lemma get_In m k v : JsMap.get k m = Some v -> In (k, v) m.
Proof.
  induction m as [|[k0 v0] m IH]; simpl; [discriminate|].
  case_decide; [intros [= ->]; subst; auto | auto].
Qed.

Lemma keys_set m k v k' :
  k' ∈ map fst (JsMap.set k v m) <-> k' = k ∨ k' ∈ map fst m.
Proof.
  induction m as [|[k0 v0] m IH]; simpl.
  - rewrite list_elem_of_singleton, elem_of_nil. tauto.
  - case_decide; subst; simpl; rewrite !elem_of_cons; [tauto|].
    rewrite IH. tauto.
Qed.

Lemma NoDup_keys_set m k v :
  NoDup (map fst m) -> NoDup (map fst (JsMap.set k v m)).
Proof.
  induction m as [|[k0 v0] m IH]; simpl; intros Hnd.
  - apply NoDup_singleton.
  - apply NoDup_cons in Hnd as [Hnotin Hnd].
    case_decide; subst; simpl; apply NoDup_cons; split; auto.
    rewrite keys_set. intros [?|?]; [congruence|done].
Qed.

Lemma keys_delete m k k' :
  k' ∈ map fst (JsMap.delete k m) -> k' ∈ map fst m.
Proof.
  induction m as [|[k0 v0] m IH]; simpl; [done|].
  case_decide; simpl; rewrite !elem_of_cons; intuition.
Qed.

Lemma NoDup_keys_delete m k :
  NoDup (map fst m) -> NoDup (map fst (JsMap.delete k m)).
Proof.
  induction m as [|[k0 v0] m IH]; simpl; intros Hnd; [done|].
  apply NoDup_cons in Hnd as [Hnotin Hnd].
  case_decide; simpl; [auto|]. apply NoDup_cons. split; [|auto].
  intros Hin. apply Hnotin. by eapply keys_delete.
Qed.

Lemma In_get m k v : NoDup (map fst m) -> In (k, v) m -> JsMap.get k m = Some v.
Proof.
  induction m as [|[k0 v0] m IH]; simpl; intros Hnd; [tauto|].
  apply NoDup_cons in Hnd as [Hnotin Hnd].
  intros [[= -> ->]|Hin]; case_decide; try congruence; [|auto].
  subst k0. exfalso. apply Hnotin. apply list_elem_of_In.
  change k with (fst (k, v)). by apply in_map.
Qed.
End JsMapFacts.

(** ** Lemmas on the session manager *)

Lemma getSession_put k k' s st :
  getSession (put k s st) k' = if decide (k' = k) then Some s else getSession st k'.
Proof. unfold getSession, put, set_sessions; simpl. apply get_set. Qed.

Lemma timers_put k s st : timers (put k s st) = timers st.
Proof. reflexivity. Qed.

Lemma getSession_clearTimeout h st k :
  getSession (clearTimeout h st) k = getSession st k.
Proof. reflexivity. Qed.

Lemma hasSession_spec st k :
  hasSession st k = true <->
  ∃ s, getSession st k = Some s ∧ status s = active.
Proof.
  unfold hasSession, JsMap.has, getSession.
  destruct (JsMap.get k (sessions st)) as [s|]; simpl.
  - destruct (status s) eqn:E; simpl; split; try discriminate; eauto.
    intros (s' & [= <-] & ?); congruence.
  - split; [discriminate|]. intros (? & ? & ?); discriminate.
Qed.

(** ** The timer invariant *)

Lemma Inv_init : Inv init.
Proof. split; intros h tm H; simpl in H; by rewrite lookup_empty in H. Qed.

(** Writing a session object back keeps the invariant when every live timer
    of that session is the handle the new object holds. *)
Lemma Inv_put k s st :
  Inv st ->
  (∀ h tm, timers st !! h = Some tm -> timer_arg tm = k -> timeoutId s = Some h) ->
  Inv (put k s st).
Proof.
  intros [Hown Hbelow] Hk. split; [|exact Hbelow].
  intros h tm Hh. rewrite timers_put in Hh. rewrite getSession_put.
  case_decide as E.
  - exists s. split; [reflexivity|]. by eapply Hk.
  - by apply Hown.
Qed.

Lemma Inv_put_same k s s0 st :
  Inv st -> getSession st k = Some s0 -> timeoutId s = timeoutId s0 ->
  Inv (put k s st).
Proof.
  intros HI Hget Heq. apply Inv_put; [exact HI|].
  intros h tm Hh <-. destruct HI as [Hown _].
  destruct (Hown h tm Hh) as (s' & Hs' & Ht). congruence.
Qed.

Lemma Inv_clearTimeout h st : Inv st -> Inv (clearTimeout h st).
Proof.
  intros [Hown Hbelow]. split; intros h' tm Hh'; simpl in Hh';
    apply lookup_delete_Some in Hh' as [_ Hh'].
  - by apply Hown.
  - by eapply Hbelow.
Qed.

Lemma Inv_createSession uuid st :
  Inv st -> getSession st uuid = None -> Inv (snd (createSession uuid st)).
Proof.
  intros HI Hfresh. simpl. apply Inv_put; [exact HI|].
  intros h tm Hh <-. destruct HI as [Hown _].
  destruct (Hown h tm Hh) as (s' & Hs' & _). congruence.
Qed.

Lemma Inv_scheduleCleanup k st : Inv st -> Inv (scheduleCleanup k st).
Proof.
  intros HI. unfold scheduleCleanup.
  destruct (getSession st k) as [session|] eqn:Hget; [|exact HI].
  destruct (is_active (status session)); simpl; [|exact HI].
  set (st1 := match timeoutId session with
              | Some h => clearTimeout h st | None => st end).
  assert (HI1 : Inv st1).
  { subst st1. destruct (timeoutId session); [by apply Inv_clearTimeout|done]. }
  assert (Hget1 : getSession st1 k = Some session).
  { subst st1. by destruct (timeoutId session). }
  assert (Hnone : ∀ h tm, timers st1 !! h = Some tm -> timer_arg tm ≠ k).
  { intros h tm Hh Harg. subst st1. destruct HI as [Hown _].
    destruct (timeoutId session) as [h0|] eqn:Ht.
    - simpl in Hh. apply lookup_delete_Some in Hh as [Hne Hh].
      destruct (Hown h tm Hh) as (s' & Hs' & Ht'). subst k. congruence.
    - destruct (Hown h tm Hh) as (s' & Hs' & Ht'). subst k. congruence. }
  destruct HI1 as [Hown1 Hbelow1]. split.
  - intros h tm Hh. rewrite timers_put in Hh. simpl in Hh.
    rewrite getSession_put.
    destruct (decide (h = next_handle st1)) as [->|Hne].
    + rewrite lookup_insert_eq in Hh. injection Hh as <-. simpl.
      case_decide; [|done]. eauto.
    + rewrite lookup_insert_ne in Hh by done.
      case_decide as E; [by destruct (Hnone h tm Hh)|].
      destruct (Hown1 h tm Hh) as (s' & Hs' & Ht'). eauto.
  - intros h tm Hh. rewrite timers_put in Hh. simpl in *.
    destruct (decide (h = next_handle st1)) as [->|Hne]; [lia|].
    rewrite lookup_insert_ne in Hh by done.
    specialize (Hbelow1 h tm Hh). lia.
Qed.

Lemma Inv_refreshSession k st : Inv st -> Inv (snd (refreshSession k st)).
Proof.
  intros HI. unfold refreshSession.
  destruct (getSession st k) as [session|] eqn:Hget; [|exact HI].
  destruct (is_active (status session)); simpl; [|exact HI].
  apply Inv_scheduleCleanup.
  assert (HI1 : Inv (put k (with_lastActive (now st) session) st))
    by (by eapply Inv_put_same).
  destruct (timeoutId session) as [h0|] eqn:Ht; [|exact HI1].
  apply Inv_put; [by apply Inv_clearTimeout|].
  intros h tm Hh <-. simpl in Hh.
  apply lookup_delete_Some in Hh as [Hne Hh].
  destruct HI as [Hown _].
  destruct (Hown h tm Hh) as (s' & Hs' & Ht'). congruence.
Qed.

Lemma Inv_markSessionForDeletion k st :
  Inv st -> Inv (snd (markSessionForDeletion k st)).
Proof.
  intros HI. unfold markSessionForDeletion.
  destruct (getSession st k) as [session|] eqn:Hget; [|exact HI].
  simpl. by eapply Inv_put_same.
Qed.

Lemma Inv_deleteSession k st : Inv st -> Inv (deleteSession k st).
Proof.
  intros HI. unfold deleteSession.
  set (st1 := match getSession st k with
              | Some session =>
                  match timeoutId session with
                  | Some h => clearTimeout h st | None => st end
              | None => st end).
  assert (HI1 : Inv st1).
  { subst st1. destruct (getSession st k) as [s|]; [|done].
    destruct (timeoutId s); [by apply Inv_clearTimeout|done]. }
  assert (Hsess : ∀ k', getSession st1 k' = getSession st k').
  { intros k'. subst st1. destruct (getSession st k) as [s|]; [|done].
    by destruct (timeoutId s). }
  assert (Hnone : ∀ h tm, timers st1 !! h = Some tm -> timer_arg tm ≠ k).
  { intros h tm Hh Harg. subst st1. destruct HI as [Hown _].
    destruct (getSession st k) as [s|] eqn:Hget.
    - destruct (timeoutId s) as [h0|] eqn:Ht.
      + simpl in Hh. apply lookup_delete_Some in Hh as [Hne Hh].
        destruct (Hown h tm Hh) as (s' & Hs' & Ht'). subst k. congruence.
      + destruct (Hown h tm Hh) as (s' & Hs' & Ht'). subst k. congruence.
    - destruct (Hown h tm Hh) as (s' & Hs' & Ht'). subst k. congruence. }
  destruct HI1 as [Hown1 Hbelow1]. split; [|exact Hbelow1].
  intros h tm Hh. simpl in Hh.
  unfold getSession, set_sessions; simpl. rewrite get_delete.
  case_decide as E; [by destruct (Hnone h tm Hh)|].
  by apply Hown1.
Qed.

(** The state after a stream event: unchanged, or [scheduleCleanup] ran. *)
Lemma on_event_final be k prompt t ev :
  final (turn_run (on_event be k prompt t ev)) =
  match ev with
  | EvEnd => scheduleCleanup k (final (turn_run t))
  | _ => final (turn_run t)
  end.
Proof.
  destruct ev; simpl; try reflexivity.
  by destruct (generate _ _ _).
Qed.

Lemma Inv_fold_on_event be k prompt events t :
  Inv (final (turn_run t)) ->
  Inv (final (turn_run (fold_left (on_event be k prompt) events t))).
Proof.
  revert t. induction events as [|ev events IH]; intros t HI; simpl; [done|].
  apply IH. rewrite on_event_final.
  destruct ev; try done. by apply Inv_scheduleCleanup.
Qed.

Lemma Inv_handlePrompt be k prompt st :
  Inv st -> Inv (final (handlePrompt be k prompt st)).
Proof.
  intros HI. unfold handlePrompt.
  destruct (getSession st k) as [session|] eqn:Hget; [|exact HI].
  destruct (is_active (status session)); simpl; [|exact HI].
  destruct (assistants_retrieve be); simpl; [|exact HI].
  set (bound := if negb (truthy (threadId session)) then _ else _).
  assert (Hb : ∀ s1, bound = Some s1 -> Inv (put k s1 st)).
  { intros s1. subst bound.
    destruct (negb (truthy (threadId session))).
    - destruct (threads_create be); [|discriminate].
      intros [= <-]. by eapply Inv_put_same.
    - intros [= <-]. by eapply Inv_put_same. }
  destruct bound as [s1|]; [|exact HI].
  specialize (Hb s1 eq_refl).
  destruct (messages_create be); simpl; [|exact Hb].
  destruct (runs_stream be) as [events|]; [|exact Hb].
  unfold consume_stream. by apply Inv_fold_on_event.
Qed.

Lemma Inv_cleanupSession be k st :
  Inv st -> Inv (final (cleanupSession be k st)).
Proof.
  intros HI. unfold cleanupSession.
  destruct (getSession st k) as [session|] eqn:Hget; [|exact HI].
  pose proof (Inv_markSessionForDeletion k st HI) as HI1.
  destruct (markSessionForDeletion k st) as [marked st1]. simpl in HI1.
  destruct marked; simpl; [|exact HI1].
  destruct (truthy (threadId session)); [|by apply Inv_deleteSession].
  destruct (threads_del be _) as [|e]; [by apply Inv_deleteSession|].
  case_bool_decide; [by apply Inv_deleteSession|exact HI1].
Qed.

Lemma Inv_cleanupExpiredSessions be st :
  Inv st -> Inv (final (cleanupExpiredSessions be st)).
Proof.
  unfold cleanupExpiredSessions.
  generalize (getExpiredSessions st). intros ids.
  change st with (final (mkRun [] [] st)) at 1.
  generalize (mkRun [] [] st). induction ids as [|k ids IH]; intros r HI; [done|].
  simpl. apply IH. simpl. by apply Inv_cleanupSession.
Qed.

Lemma Inv_exec op st : Inv st -> enabled st op -> Inv (exec op st).
Proof.
  intros HI Hen. destruct op; simpl.
  - by apply Inv_createSession.
  - by apply Inv_refreshSession.
  - by apply Inv_scheduleCleanup.
  - by apply Inv_markSessionForDeletion.
  - by apply Inv_deleteSession.
  - unfold bindThread. destruct (getSession st sessionId) eqn:Hget; [|done].
    by eapply Inv_put_same.
  - by apply Inv_handlePrompt.
  - by apply Inv_cleanupSession.
  - by apply Inv_cleanupExpiredSessions.
  - destruct (timers st !! h); [|done].
    by apply Inv_cleanupSession, Inv_clearTimeout.
  - exact HI.
Qed.

Lemma reachable_Inv st : reachable st -> Inv st.
Proof.
  induction 1 as [|st op _ IH Hen]; [apply Inv_init | by apply Inv_exec].
Qed.

Lemma owned_one_timer st : timers_owned st -> one_timer_per_session st.
Proof.
  intros Hown h1 h2 tm1 tm2 H1 H2 Harg.
  destruct (Hown h1 tm1 H1) as (s1 & Hs1 & Ht1).
  destruct (Hown h2 tm2 H2) as (s2 & Hs2 & Ht2).
  rewrite Harg in Hs1. congruence.
Qed.

(** ** The registry as a map: keys stay distinct *)

Lemma keys_unique_put k s st : keys_unique st -> keys_unique (put k s st).
Proof. unfold keys_unique. simpl. apply NoDup_keys_set. Qed.

Lemma keys_unique_scheduleCleanup k st :
  keys_unique st -> keys_unique (scheduleCleanup k st).
Proof.
  intros Hk. unfold scheduleCleanup.
  destruct (getSession st k) as [session|]; [|done].
  destruct (is_active (status session)); simpl; [|done].
  apply keys_unique_put. by destruct (timeoutId session).
Qed.

Lemma keys_unique_refreshSession k st :
  keys_unique st -> keys_unique (snd (refreshSession k st)).
Proof.
  intros Hk. unfold refreshSession.
  destruct (getSession st k) as [session|]; [|done].
  destruct (is_active (status session)); simpl; [|done].
  apply keys_unique_scheduleCleanup.
  destruct (timeoutId session); repeat apply keys_unique_put; done.
Qed.

Lemma keys_unique_markSessionForDeletion k st :
  keys_unique st -> keys_unique (snd (markSessionForDeletion k st)).
Proof.
  intros Hk. unfold markSessionForDeletion.
  destruct (getSession st k); [by apply keys_unique_put|done].
Qed.

Lemma keys_unique_deleteSession k st :
  keys_unique st -> keys_unique (deleteSession k st).
Proof.
  intros Hk. unfold deleteSession, keys_unique. simpl.
  apply NoDup_keys_delete.
  destruct (getSession st k) as [s|]; [|done]. by destruct (timeoutId s).
Qed.

Lemma keys_unique_handlePrompt be k prompt st :
  keys_unique st -> keys_unique (final (handlePrompt be k prompt st)).
Proof.
  intros Hk. unfold handlePrompt.
  destruct (getSession st k) as [session|]; [|done].
  destruct (is_active (status session)); simpl; [|done].
  destruct (assistants_retrieve be); simpl; [|done].
  destruct (if negb (truthy (threadId session)) then _ else _) as [s1|];
    [|done].
  pose proof (keys_unique_put k s1 st Hk) as Hk1.
  destruct (messages_create be); simpl; [|done].
  destruct (runs_stream be) as [events|]; [|done].
  unfold consume_stream.
  change (put k s1 st) with (final (turn_run (mkTurn "" (mkRun [] [] (put k s1 st)))))
    in Hk1.
  revert Hk1. generalize (mkTurn "" (mkRun [] [] (put k s1 st))).
  induction events as [|ev events IH]; intros t Ht; simpl; [done|].
  apply IH. rewrite on_event_final. destruct ev; try done.
  by apply keys_unique_scheduleCleanup.
Qed.

Lemma keys_unique_cleanupSession be k st :
  keys_unique st -> keys_unique (final (cleanupSession be k st)).
Proof.
  intros Hk. unfold cleanupSession.
  destruct (getSession st k) as [session|]; [|done].
  pose proof (keys_unique_markSessionForDeletion k st Hk) as Hk1.
  destruct (markSessionForDeletion k st) as [marked st1]. simpl in Hk1.
  destruct marked; simpl; [|done].
  destruct (truthy (threadId session)); [|by apply keys_unique_deleteSession].
  destruct (threads_del be _) as [|e]; [by apply keys_unique_deleteSession|].
  case_bool_decide; [by apply keys_unique_deleteSession|done].
Qed.

Lemma keys_unique_cleanupExpiredSessions be st :
  keys_unique st -> keys_unique (final (cleanupExpiredSessions be st)).
Proof.
  unfold cleanupExpiredSessions.
  generalize (getExpiredSessions st). intros ids.
  change st with (final (mkRun [] [] st)) at 1.
  generalize (mkRun [] [] st). induction ids as [|k ids IH]; intros r Hk; [done|].
  simpl. apply IH. simpl. by apply keys_unique_cleanupSession.
Qed.

Lemma keys_unique_exec op st : keys_unique st -> keys_unique (exec op st).
Proof.
  intros Hk. destruct op; simpl.
  - by apply keys_unique_put.
  - by apply keys_unique_refreshSession.
  - by apply keys_unique_scheduleCleanup.
  - by apply keys_unique_markSessionForDeletion.
  - by apply keys_unique_deleteSession.
  - unfold bindThread. destruct (getSession st sessionId); [|done].
    by apply keys_unique_put.
  - by apply keys_unique_handlePrompt.
  - by apply keys_unique_cleanupSession.
  - by apply keys_unique_cleanupExpiredSessions.
  - destruct (timers st !! h); [|done]. by apply keys_unique_cleanupSession.
  - exact Hk.
Qed.

Lemma reachable_keys_unique st : reachable st -> keys_unique st.
Proof.
  induction 1 as [|st op _ IH _]; [apply NoDup_nil_2 | by apply keys_unique_exec].
Qed.

(** ** Which operations arm a timer *)

Lemma arms_of_subseteq st st' : timers st' ⊆ timers st -> arms_for_active st st'.
Proof. intros Hsub h tm Hh. left. by eapply lookup_weaken. Qed.

Lemma arms_trans st st' st'' :
  arms_for_active st st' -> arms_for_active st' st'' ->
  (∀ k, hasSession st' k = true -> hasSession st'' k = true) ->
  arms_for_active st st''.
Proof.
  intros H1 H2 Hkeep h tm Hh.
  destruct (H2 h tm Hh) as [Hh'|Hact]; [|by right].
  destruct (H1 h tm Hh') as [Hh0|Hact]; [by left|right; by apply Hkeep].
Qed.

Lemma timers_clear_opt (o : option nat) st :
  timers (match o with Some h => clearTimeout h st | None => st end) ⊆ timers st.
Proof. destruct o; simpl; [apply delete_subseteq|done]. Qed.

Lemma hasSession_put_status k s s0 st k' :
  getSession st k = Some s0 -> status s = status s0 ->
  hasSession (put k s st) k' = hasSession st k'.
Proof.
  intros Hget Hst. unfold hasSession, JsMap.has.
  fold (getSession (put k s st) k') (getSession st k').
  rewrite getSession_put. case_decide as E; [|done].
  subst k'. rewrite Hget. simpl. by rewrite Hst.
Qed.

Lemma hasSession_scheduleCleanup k st k' :
  hasSession (scheduleCleanup k st) k' = hasSession st k'.
Proof.
  unfold scheduleCleanup.
  destruct (getSession st k) as [session|] eqn:Hget; [|done].
  destruct (is_active (status session)); simpl; [|done].
  rewrite (hasSession_put_status k _ session).
  - destruct (timeoutId session); reflexivity.
  - simpl. destruct (timeoutId session); exact Hget.
  - reflexivity.
Qed.

Lemma getSession_scheduleCleanup_active k st session :
  getSession st k = Some session -> status session = active ->
  getSession (scheduleCleanup k st) k =
    Some (with_timeoutId (Some (next_handle st)) session).
Proof.
  intros Hget Hact. unfold scheduleCleanup. rewrite Hget, Hact. simpl.
  rewrite getSession_put. case_decide; [|done].
  by destruct (timeoutId session).
Qed.

Lemma arms_scheduleCleanup k st : arms_for_active st (scheduleCleanup k st).
Proof.
  intros h tm Hh.
  destruct (hasSession st k) eqn:Hhas.
  - apply hasSession_spec in Hhas as (session & Hget & Hact).
    unfold scheduleCleanup in Hh. rewrite Hget, Hact in Hh. simpl in Hh.
    set (st1 := match timeoutId session with
                | Some h0 => clearTimeout h0 st | None => st end) in Hh.
    assert (Hn : next_handle st1 = next_handle st)
      by (subst st1; by destruct (timeoutId session)).
    destruct (decide (h = next_handle st1)) as [->|Hne].
    + rewrite lookup_insert_eq in Hh. injection Hh as <-. right. simpl.
      rewrite hasSession_scheduleCleanup. apply hasSession_spec. eauto.
    + rewrite lookup_insert_ne in Hh by done. left.
      eapply lookup_weaken; [exact Hh|]. subst st1. apply timers_clear_opt.
  - left. unfold scheduleCleanup in Hh.
    destruct (getSession st k) as [session|] eqn:Hget; [|done].
    destruct (is_active (status session)) eqn:Hact; [|done].
    exfalso. assert (hasSession st k = true); [|congruence].
    apply hasSession_spec. exists session. split; [done|].
    by destruct (status session).
Qed.

Lemma arms_refreshSession k st : arms_for_active st (snd (refreshSession k st)).
Proof.
  unfold refreshSession.
  destruct (getSession st k) as [session|] eqn:Hget;
    [|by apply arms_of_subseteq].
  destruct (is_active (status session)); simpl; [|by apply arms_of_subseteq].
  eapply arms_trans; [|apply arms_scheduleCleanup|].
  - apply arms_of_subseteq. destruct (timeoutId session); simpl;
      [apply delete_subseteq|done].
  - intros k' Hk'. by rewrite hasSession_scheduleCleanup.
Qed.

Lemma arms_fold_on_event be k prompt events st0 t :
  arms_for_active st0 (final (turn_run t)) ->
  arms_for_active st0
    (final (turn_run (fold_left (on_event be k prompt) events t))).
Proof.
  revert t. induction events as [|ev events IH]; intros t Ht; simpl; [done|].
  apply IH. rewrite on_event_final. destruct ev; try done.
  eapply arms_trans; [exact Ht|apply arms_scheduleCleanup|].
  intros k' Hk'. by rewrite hasSession_scheduleCleanup.
Qed.

Lemma arms_handlePrompt be k prompt st :
  arms_for_active st (final (handlePrompt be k prompt st)).
Proof.
  unfold handlePrompt.
  destruct (getSession st k) as [session|] eqn:Hget;
    [|by apply arms_of_subseteq].
  destruct (is_active (status session)); simpl; [|by apply arms_of_subseteq].
  destruct (assistants_retrieve be); simpl; [|by apply arms_of_subseteq].
  destruct (if negb (truthy (threadId session)) then _ else _) as [s1|];
    [|by apply arms_of_subseteq].
  destruct (messages_create be); simpl; [|by apply arms_of_subseteq].
  destruct (runs_stream be) as [events|]; [|by apply arms_of_subseteq].
  unfold consume_stream. apply arms_fold_on_event. by apply arms_of_subseteq.
Qed.

Lemma timers_markSessionForDeletion k st :
  timers (snd (markSessionForDeletion k st)) = timers st.
Proof. unfold markSessionForDeletion. by destruct (getSession st k). Qed.

Lemma timers_deleteSession k st : timers (deleteSession k st) ⊆ timers st.
Proof.
  unfold deleteSession. simpl.
  destruct (getSession st k) as [s|]; [|done]. apply timers_clear_opt.
Qed.

Lemma timers_cleanupSession be k st :
  timers (final (cleanupSession be k st)) ⊆ timers st.
Proof.
  unfold cleanupSession.
  destruct (getSession st k) as [session|] eqn:Hget; [|done].
  pose proof (timers_markSessionForDeletion k st) as Hm.
  destruct (markSessionForDeletion k st) as [marked st1]. simpl in Hm.
  assert (Hd : timers (deleteSession k st1) ⊆ timers st)
    by (rewrite <- Hm; apply timers_deleteSession).
  destruct marked; simpl; [|by rewrite Hm].
  destruct (truthy (threadId session)); [|done].
  destruct (threads_del be _) as [|e]; [done|].
  case_bool_decide; simpl; [done|by rewrite Hm].
Qed.

Lemma timers_cleanupExpiredSessions be st :
  timers (final (cleanupExpiredSessions be st)) ⊆ timers st.
Proof.
  unfold cleanupExpiredSessions.
  generalize (getExpiredSessions st). intros ids.
  change (timers st) with (timers (final (mkRun [] [] st))).
  generalize (mkRun [] [] st). intros r0.
  assert (H : ∀ r, timers (final (fold_left
      (fun (r : Run) (sessionId : string) =>
         let r' := cleanupSession be sessionId (final r) in
         mkRun (emitted r ++ emitted r') (generate_calls r ++ generate_calls r')
               (final r')) ids r)) ⊆ timers (final r)).
  { induction ids as [|k ids IH]; intros r; simpl; [done|].
    etrans; [apply IH|]. simpl. apply timers_cleanupSession. }
  apply H.
Qed.

Lemma arms_exec op st : arms_for_active st (exec op st).
Proof.
  destruct op; simpl.
  - by apply arms_of_subseteq.
  - apply arms_refreshSession.
  - apply arms_scheduleCleanup.
  - apply arms_of_subseteq. by rewrite timers_markSessionForDeletion.
  - apply arms_of_subseteq, timers_deleteSession.
  - apply arms_of_subseteq. unfold bindThread.
    by destruct (getSession st sessionId).
  - apply arms_handlePrompt.
  - apply arms_of_subseteq, timers_cleanupSession.
  - apply arms_of_subseteq, timers_cleanupExpiredSessions.
  - apply arms_of_subseteq. destruct (timers st !! h); [|done].
    etrans; [apply timers_cleanupSession|]. simpl. apply delete_subseteq.
  - by apply arms_of_subseteq.
Qed.

Lemma reachable_st_created : reachable st_created.
Proof. apply reachable_step; [apply reachable_init | reflexivity]. Qed.

Lemma reachable_st_armed : reachable st_armed.
Proof. apply reachable_step; [apply reachable_st_created | exact I]. Qed.

Lemma reachable_st_marked : reachable st_marked.
Proof. apply reachable_step; [apply reachable_st_armed | exact I]. Qed.

(** ** Properties of the session manager *)

Lemma markSessionForDeletion_result k st :
  fst (markSessionForDeletion k st) = JsMap.has k (sessions st).
Proof.
  unfold markSessionForDeletion, JsMap.has. fold (getSession st k).
  by destruct (getSession st k).
Qed.

Lemma markSessionForDeletion_absent k st :
  getSession st k = None -> markSessionForDeletion k st = (false, st).
Proof. intros H. unfold markSessionForDeletion. by rewrite H. Qed.

(** The status is not consulted: marking a session that is already marked
    answers [true] again. *)
Lemma markSessionForDeletion_again k st s :
  getSession st k = Some s ->
  fst (markSessionForDeletion k st) = true ∧
  fst (markSessionForDeletion k (snd (markSessionForDeletion k st))) = true.
Proof.
  intros H. unfold markSessionForDeletion at 2 3. rewrite H. simpl.
  split.
  - unfold markSessionForDeletion. by rewrite H.
  - unfold markSessionForDeletion. rewrite getSession_put.
    by case_decide.
Qed.

(** C1, on the code: [markSessionForDeletion] called twice in succession on
    the existing session "s1" returns [true] both times (the claim expects
    [true] then [false]); on an id that is not in the registry it returns
    [false]. *)
Theorem markSessionForDeletion_twice_both_true :
  let '(first, st1) := markSessionForDeletion "s1" st_created in
  let '(second, _) := markSessionForDeletion "s1" st1 in
  first = true ∧ second = true ∧
  fst (markSessionForDeletion "s2" st_created) = false.
Proof. vm_compute. auto. Qed.

(** C6: for a session id that is absent from the registry, or whose session
    has status [pending_deletion], [refreshSession] returns [null] and leaves
    the whole state as it was: sessions (so [lastActive] and status), pending
    timers and next handle are unchanged. *)
Theorem refreshSession_rejected st k :
  getSession st k = None ∨
    (∃ s, getSession st k = Some s ∧ status s = pending_deletion) ->
  refreshSession k st = (None, st).
Proof.
  intros [Habs|(s & Hget & Hst)]; unfold refreshSession.
  - by rewrite Habs.
  - by rewrite Hget, Hst.
Qed.

Lemma refreshSession_rejected_witness :
  refreshSession "s1" st_marked = (None, st_marked) ∧
  refreshSession "s2" st_marked = (None, st_marked).
Proof.
  split.
  - apply (refreshSession_rejected st_marked "s1"). right.
    eexists. split; [vm_compute; reflexivity | reflexivity].
  - apply (refreshSession_rejected st_marked "s2"). left. reflexivity.
Defined.

(** The loop of [getExpiredSessions] appends the keys that pass the test. *)
Lemma expired_loop_filter t entries acc :
  expired_loop t entries acc =
  acc ++ map fst (List.filter (fun p => expired t (snd p)) entries).
Proof.
  revert acc. induction entries as [|[k s] entries IH]; intros acc; simpl.
  - by rewrite app_nil_r.
  - rewrite IH. destruct (expired t s); simpl; [|done].
    by rewrite <- app_assoc.
Qed.

Lemma expired_spec t s :
  expired t s = true <->
  status s = pending_deletion ∨
  (status s = active ∧ (t - lastActive s > 30 * 60 * 1000)%Z).
Proof.
  unfold expired, SESSION_TIMEOUT.
  destruct (status s); simpl; rewrite ?andb_true_r, ?andb_false_r.
  - rewrite Z.gtb_gt. split; [auto|]. intros [?|[_ ?]]; [discriminate|done].
  - split; auto.
Qed.

Lemma getExpiredSessions_filter st :
  getExpiredSessions st =
  map fst (List.filter (fun p => expired (now st) (snd p)) (sessions st)).
Proof. unfold getExpiredSessions. by rewrite expired_loop_filter. Qed.

(** C7: [getExpiredSessions], at time [now], returns exactly the ids of the
    sessions whose status is [pending_deletion] and of the sessions whose
    status is [active] with [now - lastActive] strictly above 30 minutes
    (in milliseconds); no other id is returned. *)
Theorem getExpiredSessions_spec st k :
  In k (getExpiredSessions st) <->
  ∃ s, In (k, s) (sessions st) ∧
    (status s = pending_deletion ∨
     (status s = active ∧ (now st - lastActive s > 30 * 60 * 1000)%Z)).
Proof.
  rewrite getExpiredSessions_filter, in_map_iff. split.
  - intros ([k' s] & Hk & Hin). simpl in Hk. subst k'.
    apply filter_In in Hin as [Hin Hexp]. simpl in Hexp.
    exists s. split; [done|]. by apply expired_spec.
  - intros (s & Hin & Hexp). exists (k, s). split; [done|].
    apply filter_In. split; [done|]. simpl. by apply expired_spec.
Qed.

(** In a reachable state the entries of the map are what [getSession]
    returns, so the sweep input can be read off [getSession]. *)
Lemma getExpiredSessions_getSession st k :
  reachable st ->
  In k (getExpiredSessions st) <->
  ∃ s, getSession st k = Some s ∧ expired (now st) s = true.
Proof.
  intros Hreach. rewrite getExpiredSessions_filter, in_map_iff. split.
  - intros ([k' s] & Hk & Hin). simpl in Hk. subst k'.
    apply filter_In in Hin as [Hin Hexp]. exists s. split; [|done].
    apply In_get; [apply (reachable_keys_unique st Hreach)|done].
  - intros (s & Hget & Hexp). exists (k, s). split; [done|].
    apply filter_In. split; [by apply get_In|done].
Qed.

(** C9: in every state reached by any sequence of operations (create,
    refresh, schedule, mark, delete, prompt, cleanup, sweep, timer firing,
    clock ticks), no session has two live timers; and arming replaces: after
    [scheduleCleanup] or [refreshSession] on an active session the only live
    timer of that session is the handle just returned by [setTimeout]. *)
Theorem no_two_live_timers st :
  reachable st ->
  one_timer_per_session st ∧
  (∀ k h tm, hasSession st k = true -> timer_arg tm = k ->
     (timers (scheduleCleanup k st) !! h = Some tm -> h = next_handle st) ∧
     (timers (snd (refreshSession k st)) !! h = Some tm -> h = next_handle st)).
Proof.
  intros Hreach. pose proof (reachable_Inv st Hreach) as HI.
  split; [apply owned_one_timer, HI|].
  intros k h tm Hhas Harg.
  apply hasSession_spec in Hhas as (session & Hget & Hact). split.
  - intros Hh. destruct (Inv_scheduleCleanup k st HI) as [Hown _].
    destruct (Hown h tm Hh) as (s' & Hs' & Ht'). rewrite Harg in Hs'.
    rewrite (getSession_scheduleCleanup_active k st session) in Hs' by done.
    injection Hs' as <-. simpl in Ht'. congruence.
  - intros Hh. destruct (Inv_refreshSession k st HI) as [Hown _].
    destruct (Hown h tm Hh) as (s' & Hs' & Ht'). rewrite Harg in Hs'.
    unfold refreshSession in Hs'. rewrite Hget, Hact in Hs'. simpl in Hs'.
    set (st2 := match timeoutId session with
                | Some h0 => _ | None => _ end) in Hs'.
    assert (Hn : next_handle st2 = next_handle st)
      by (subst st2; by destruct (timeoutId session)).
    assert (∃ s2, getSession st2 k = Some s2 ∧ status s2 = active)
      as (s2 & Hget2 & Hact2).
    { subst st2. destruct (timeoutId session).
      - eexists. rewrite getSession_put.
        split; [by case_decide|done].
      - eexists. rewrite getSession_put.
        split; [by case_decide|done]. }
    rewrite (getSession_scheduleCleanup_active k st2 s2) in Hs' by done.
    injection Hs' as <-. simpl in Ht'. congruence.
Qed.

Lemma no_two_live_timers_witness :
  reachable st_armed ∧ timers st_armed !! 0 = Some (mkTimer "s1" 1800000) ∧
  one_timer_per_session st_armed.
Proof.
  assert (Hreach : reachable st_armed).
  { apply reachable_step; [|exact I].
    apply reachable_step; [apply reachable_init|reflexivity]. }
  split; [exact Hreach|]. split; [reflexivity|].
  apply (no_two_live_timers st_armed Hreach).
Defined.

(** C2, as stated, fails: ["s1"] is created, refreshed (which arms its
    timer) and then marked for deletion; handle 0 is still pending while the
    status of ["s1"] is [pending_deletion]. *)
Lemma pending_deletion_with_live_timer :
  reachable st_marked ∧
  timers st_marked !! 0 = Some (mkTimer "s1" 1800000) ∧
  (status <$> getSession st_marked "s1") = Some pending_deletion ∧
  ¬ live_timer_active st_marked.
Proof.
  split; [apply reachable_st_marked|].
  split; [reflexivity|]. split; [reflexivity|].
  intros H. destruct (H 0 (mkTimer "s1" 1800000) eq_refl) as (s & Hs & Hact).
  vm_compute in Hs. injection Hs as <-. discriminate Hact.
Qed.

(** C2, amended: a timer is armed only for an active session (a timer that
    is pending after an operation and was not pending before it belongs to a
    session that is active after the operation), every live timer is the
    current handle of a session that is in the registry, and
    [markSessionForDeletion] leaves the pending timers and the session's
    handle as they are, so a session that enters [pending_deletion] keeps the
    live timer it had. *)
Theorem timers_armed_only_for_active st :
  reachable st ->
  timers_owned st ∧
  (∀ op h tm, timers (exec op st) !! h = Some tm -> timers st !! h = None ->
     hasSession (exec op st) (timer_arg tm) = true) ∧
  (∀ k, timers (snd (markSessionForDeletion k st)) = timers st ∧
        (timeoutId <$> getSession (snd (markSessionForDeletion k st)) k)
          = (timeoutId <$> getSession st k)).
Proof.
  intros Hreach. split; [apply (reachable_Inv st Hreach)|]. split.
  - intros op h tm Hh Hnew.
    destruct (arms_exec op st h tm Hh) as [Hold|Hact]; [congruence|done].
  - intros k. split; [apply timers_markSessionForDeletion|].
    unfold markSessionForDeletion.
    destruct (getSession st k) as [s|] eqn:Hget; simpl; [|by rewrite Hget].
    rewrite getSession_put. by case_decide.
Qed.

Lemma timers_armed_only_for_active_witness :
  reachable st_created ∧
  hasSession (exec (OpRefresh "s1") st_created) "s1" = true.
Proof.
  assert (Hreach : reachable st_created).
  { apply reachable_step; [apply reachable_init|reflexivity]. }
  split; [exact Hreach|].
  destruct (timers_armed_only_for_active st_created Hreach) as (_ & Harm & _).
  apply (Harm (OpRefresh "s1") 0 (mkTimer "s1" 1800000)); reflexivity.
Defined.

(** ** Properties of the socket handlers *)

Lemma refreshSession_active k st :
  hasSession st k = true -> is_Some (fst (refreshSession k st)).
Proof.
  intros Hhas. apply hasSession_spec in Hhas as (session & Hget & Hact).
  unfold refreshSession. rewrite Hget, Hact. simpl.
  set (st2 := match timeoutId session with
              | Some h0 => _ | None => _ end).
  assert (∃ s2, getSession st2 k = Some s2 ∧ status s2 = active)
    as (s2 & Hget2 & Hact2).
  { subst st2. destruct (timeoutId session);
      eexists; rewrite getSession_put; (split; [by case_decide|done]). }
  rewrite (getSession_scheduleCleanup_active k st2 s2) by done. eauto.
Qed.

(** A resume request whose id is missing, unknown or not active takes the
    outer [else]: a fresh session and [session_created] without [info]. *)
Lemma resume_session_rejected data uuid conn st :
  truthy data && hasSession st (default "" data) = false ->
  resume_session data uuid conn st =
    (Some uuid,
     mkRun [session_created uuid None] [] (snd (createSession uuid st))).
Proof. intros H. unfold resume_session. by rewrite H. Qed.

(** The branch that sends [info: "Previous session expired"] is never taken:
    it needs [hasSession] to hold and [refreshSession] to fail on the same
    state. *)
Lemma resume_session_never_info data uuid conn st id info :
  ¬ In (session_created id (Some info))
       (emitted (snd (resume_session data uuid conn st))).
Proof.
  unfold resume_session.
  destruct (truthy data && hasSession st (default "" data)) eqn:Hc.
  - apply andb_true_iff in Hc as [_ Hhas].
    destruct (refreshSession_active _ _ Hhas) as [s Hs].
    destruct (refreshSession (default "" data) st) as [o st1].
    simpl in Hs. subst o. simpl. intros [H|[]]. discriminate.
  - simpl. intros [H|[]]. discriminate.
Qed.

(** C3, on the code: a resume request with an id unknown to the registry
    (["gone"]), or with the id of a session that is in [pending_deletion]
    (["s1"] in [st_marked]), emits no [session_resumed] and creates the fresh
    session ["u1"], but the [session_created] event carries no [info]
    (the claim expects the informational flag). *)
Theorem resume_session_rejected_without_info :
  emitted (snd (resume_session (Some "gone") "u1" None init))
    = [session_created "u1" None] ∧
  emitted (snd (resume_session (Some "s1") "u1" None st_marked))
    = [session_created "u1" None] ∧
  hasSession (final (snd (resume_session (Some "s1") "u1" None st_marked))) "u1"
    = true.
Proof. vm_compute. auto. Qed.

(** ** Properties of session cleanup *)

Lemma getSession_deleteSession k st : getSession (deleteSession k st) k = None.
Proof.
  unfold deleteSession, getSession, set_sessions. simpl.
  rewrite get_delete. case_decide; [done|congruence].
Qed.

Lemma cleanupSession_bound be st k s tid :
  getSession st k = Some s -> threadId s = Some tid -> tid ≠ "" ->
  cleanupSession be k st =
    let st1 := put k (with_status pending_deletion s) st in
    match threads_del be tid with
    | DelOk => mkRun [clear_chat k] [] (deleteSession k st1)
    | DelError e =>
        if bool_decide (e = Some 404%Z) then mkRun [] [] (deleteSession k st1)
        else mkRun [] [] st1
    end.
Proof.
  intros Hget Htid Hne. unfold cleanupSession, markSessionForDeletion.
  rewrite Hget. simpl. rewrite Htid. simpl.
  destruct (String.eqb_spec tid ""); [done|]. reflexivity.
Qed.

Lemma cleanupSession_unbound be st k s :
  getSession st k = Some s -> truthy (threadId s) = false ->
  cleanupSession be k st =
    mkRun [] [] (deleteSession k (put k (with_status pending_deletion s) st)).
Proof.
  intros Hget Hf. unfold cleanupSession, markSessionForDeletion.
  rewrite Hget. simpl. by rewrite Hf.
Qed.

(** C10: [clear_chat] is broadcast only right after a successful remote
    deletion. With a bound thread and a deletion that resolves, the cleanup
    emits exactly [clear_chat] for that session and removes the record; with
    no thread (the [threadId] is unset) the record is removed and nothing is
    emitted; with a deletion that rejects, 404 or not, nothing is emitted;
    and the cleanup of an id that is not in the registry emits nothing. *)
Theorem clear_chat_only_after_delete be st k :
  let r := cleanupSession be k st in
  (getSession st k = None -> emitted r = []) ∧
  (∀ s, getSession st k = Some s -> truthy (threadId s) = false ->
     emitted r = [] ∧ getSession (final r) k = None) ∧
  (∀ s tid, getSession st k = Some s -> threadId s = Some tid -> tid ≠ "" ->
     match threads_del be tid with
     | DelOk => emitted r = [clear_chat k] ∧ getSession (final r) k = None
     | DelError _ => emitted r = []
     end).
Proof.
  simpl. split; [|split].
  - intros Habs. unfold cleanupSession. by rewrite Habs.
  - intros s Hget Hf. rewrite (cleanupSession_unbound be st k s Hget Hf).
    simpl. split; [done|apply getSession_deleteSession].
  - intros s tid Hget Htid Hne.
    rewrite (cleanupSession_bound be st k s tid Hget Htid Hne). simpl.
    destruct (threads_del be tid) as [|e]; simpl.
    + split; [done|apply getSession_deleteSession].
    + by case_bool_decide.
Qed.

Lemma clear_chat_only_after_delete_witness :
  emitted (cleanupSession be_ok "s1" st_bound) = [clear_chat "s1"] ∧
  emitted (cleanupSession (with_del (DelError (Some 404%Z)) be_ok) "s1" st_bound)
    = [] ∧
  emitted (cleanupSession be_ok "s1" st_created) = [].
Proof.
  assert (Hget : getSession st_bound "s1"
                 = Some (mkSession (Some "thread_1") 0 (Some 0) active))
    by reflexivity.
  split; [|split].
  - destruct (clear_chat_only_after_delete be_ok st_bound "s1") as (_ & _ & H).
    exact (proj1 (H _ "thread_1" Hget eq_refl ltac:(discriminate))).
  - destruct (clear_chat_only_after_delete
                (with_del (DelError (Some 404%Z)) be_ok) st_bound "s1")
      as (_ & _ & H).
    exact (H _ "thread_1" Hget eq_refl ltac:(discriminate)).
  - destruct (clear_chat_only_after_delete be_ok st_created "s1") as (_ & H & _).
    exact (proj1 (H (mkSession None 0 None active) eq_refl eq_refl)).
Defined.

(** ** Properties of a prompt turn *)

Lemma string_app_assoc (a b c : string) :
  ((a ++ b) ++ c = a ++ (b ++ c))%string.
Proof.
  induction a as [|x a IH]; [reflexivity|].
  change (String x ((a ++ b) ++ c) = String x (a ++ (b ++ c)))%string.
  by f_equal.
Qed.

Lemma string_app_empty_r (a : string) : (a ++ "" = a)%string.
Proof.
  induction a as [|x a IH]; [reflexivity|].
  change (String x (a ++ "") = String x a)%string. by f_equal.
Qed.

(** Events before the terminal one are forwarded in order and only grow the
    reply text; they leave the state and the generator alone. *)
Lemma fold_text_events be k prompt pre t :
  Forall (fun ev => is_terminal ev = false) pre ->
  fold_left (on_event be k prompt) pre t =
  mkTurn (fullResponse t ++ reply_text pre)%string
         (mkRun (emitted (turn_run t) ++ flat_map forward_text pre)
                (generate_calls (turn_run t)) (final (turn_run t))).
Proof.
  intros Hpre. revert t.
  induction Hpre as [|ev pre Hev _ IH]; intros [full [out calls st]]; simpl.
  - by rewrite string_app_empty_r, app_nil_r.
  - rewrite IH. destruct ev; try discriminate; simpl.
    + by rewrite <- app_assoc.
    + by rewrite string_app_assoc, <- app_assoc.
Qed.

Lemma consume_stream_terminal be k prompt pre ev st :
  Forall (fun ev => is_terminal ev = false) pre ->
  consume_stream be k prompt (pre ++ [ev]) st =
  turn_run (on_event be k prompt
              (mkTurn (reply_text pre)
                      (mkRun (flat_map forward_text pre) [] st)) ev).
Proof.
  intros Hpre. unfold consume_stream.
  rewrite fold_left_app, (fold_text_events be k prompt pre _ Hpre). reflexivity.
Qed.

(** When the checks before the stream pass, [handlePrompt] is the stream
    consumer run on the state in which the session is bound to its thread. *)
Lemma handlePrompt_streams be k prompt st session events :
  getSession st k = Some session -> status session = active ->
  assistants_retrieve be = true ->
  truthy (threadId session) = true ∨ is_Some (threads_create be) ->
  messages_create be = true ->
  runs_stream be = Some events ->
  ∃ session1,
    status session1 = active ∧ timeoutId session1 = timeoutId session ∧
    handlePrompt be k prompt st =
      consume_stream be k prompt events (put k session1 st).
Proof.
  intros Hget Hact Hret Hthr Hmsg Hstream.
  unfold handlePrompt. rewrite Hget, Hact, Hret, Hmsg, Hstream. simpl.
  destruct (truthy (threadId session)) eqn:Ht; simpl.
  - exists session. by rewrite Hact.
  - destruct Hthr as [?|[id Hid]]; [discriminate|]. rewrite Hid.
    exists (with_threadId (Some id) session). simpl. by rewrite Hact.
Qed.

Lemma text_events_no_error pre :
  List.filter is_error (flat_map forward_text pre) = [].
Proof. induction pre as [|[] pre IH]; simpl; auto. Qed.

Lemma text_events_only pre e :
  In e (flat_map forward_text pre) ->
  (∃ t, e = textCreated t) ∨ (∃ v s, e = textDelta v s).
Proof.
  induction pre as [|ev pre IH]; simpl; [tauto|].
  rewrite in_app_iff. intros [H|H]; [|auto].
  destruct ev; simpl in H; try done; destruct H as [<-|[]]; eauto.
Qed.

Lemma hasSession_put_active k s st :
  status s = active -> hasSession (put k s st) k = true.
Proof.
  intros Hact. apply hasSession_spec. exists s.
  rewrite getSession_put. by case_decide.
Qed.

(** A stream that ends with the error event (text events, then the error
    and nothing after it): the text events are forwarded in order, then one
    error signal, and that is all; no completion signal, no suggestions
    event, no call to the suggestion generator, no timer re-armed. *)
Lemma stream_error_ends_turn be k prompt st session pre :
  getSession st k = Some session -> status session = active ->
  assistants_retrieve be = true ->
  truthy (threadId session) = true ∨ is_Some (threads_create be) ->
  messages_create be = true ->
  runs_stream be = Some (pre ++ [EvError]) ->
  Forall (fun ev => is_terminal ev = false) pre ->
  let r := handlePrompt be k prompt st in
  emitted r =
    flat_map forward_text pre ++ [error "Error during response streaming"] ∧
  length (List.filter is_error (emitted r)) = 1 ∧
  ¬ In responseComplete (emitted r) ∧
  (∀ v, ¬ In (suggestions v) (emitted r)) ∧
  generate_calls r = [] ∧
  hasSession (final r) k = true ∧
  timers (final r) = timers st.
Proof.
  intros Hget Hact Hret Hthr Hmsg Hstream Hpre. simpl.
  destruct (handlePrompt_streams be k prompt st session _
              Hget Hact Hret Hthr Hmsg Hstream) as (s1 & Hact1 & _ & ->).
  rewrite (consume_stream_terminal be k prompt pre EvError _ Hpre). simpl.
  split; [done|]. split; [|split; [|split; [|split; [|split]]]].
  - rewrite List.filter_app, text_events_no_error. reflexivity.
  - rewrite in_app_iff. intros [H|[H|[]]]; [|discriminate].
    destruct (text_events_only pre _ H) as [[t Ht]|(v & s & Hv)]; discriminate.
  - intros v. rewrite in_app_iff. intros [H|[H|[]]]; [|discriminate].
    destruct (text_events_only pre _ H) as [[t Ht]|(v' & s & Hv)]; discriminate.
  - reflexivity.
  - by apply hasSession_put_active.
  - reflexivity.
Qed.

Lemma stream_error_ends_turn_witness :
  let be := with_stream [EvTextCreated ""; EvTextDelta "Hi" "Hi"; EvError] be_ok in
  let r := handlePrompt be "s1" "hello" st_created in
  emitted r =
    [textCreated ""; textDelta "Hi" "Hi";
     error "Error during response streaming"] ∧
  generate_calls r = [] ∧
  hasSession (final r) "s1" = true.
Proof.
  simpl.
  destruct (stream_error_ends_turn
    (with_stream [EvTextCreated ""; EvTextDelta "Hi" "Hi"; EvError] be_ok)
    "s1" "hello" st_created (mkSession None 0 None active)
    [EvTextCreated ""; EvTextDelta "Hi" "Hi"]
    eq_refl eq_refl eq_refl (or_intror (ex_intro _ "thread_1" eq_refl))
    eq_refl eq_refl
    ltac:(repeat constructor))
    as (Hout & _ & _ & _ & Hcalls & Hact & _).
  split; [exact Hout|]. split; [exact Hcalls|exact Hact].
Defined.

(** The four handlers share no flag: the lemma above rests on the error
    being the last event of the stream. When the stream delivers [EvEnd]
    after [EvError], the end handler runs as usual. *)
Example end_after_error_still_completes :
  emitted (handlePrompt (with_stream [EvError; EvEnd] be_ok)
             "s1" "hello" st_created) =
    [error "Error during response streaming"; responseComplete;
     suggestions (JArr [JStr "a"; JStr "b"; JStr "c"])].
Proof. reflexivity. Qed.

(** C5, as stated, fails on both counts. When the suggestion model call
    rejects, the suggestions event is not omitted: it is sent with an empty
    array. When the model answers with two quick replies, the event carries
    two entries. *)
Lemma suggestions_sent_when_generator_fails :
  (let be := with_completion CompletionRejects be_ok in
   let r := handlePrompt be "s1" "hello" st_created in
   emitted r =
     [textCreated ""; textDelta "Hi" "Hi"; responseComplete;
      suggestions (JArr [])] ∧
   ¬ suggestions_as_claimed be r) ∧
  (let be := with_completion
       (CompletionContent
          (Some (JObj [("quick_replies", JArr [JStr "a"; JStr "b"])]))) be_ok in
   let r := handlePrompt be "s1" "hello" st_created in
   emitted r =
     [textCreated ""; textDelta "Hi" "Hi"; responseComplete;
      suggestions (JArr [JStr "a"; JStr "b"])] ∧
   ¬ suggestions_as_claimed be r).
Proof.
  split; simpl.
  - split; [reflexivity|]. intros [Hom _].
    apply (Hom (ex_intro _ ApiError eq_refl) (JArr [])).
    vm_compute. auto.
  - split; [reflexivity|]. intros [_ Hthree].
    destruct (Hthree (JArr [JStr "a"; JStr "b"])) as (a & b & c & Habc).
    + vm_compute. auto.
    + discriminate Habc.
Qed.

(** C5, amended: a turn that reaches the stream and completes normally
    sends, after the text events, the completion signal and then one
    suggestions event. Its payload is the [quick_replies] value of the
    suggestion model's answer (three entries when the model returns the
    three it is asked for; the count is not checked) and an empty array when
    the generator fails. The generator is called once with the prompt and the
    concatenated reply, no error event is sent, and the session is still
    active afterwards. *)
Theorem normal_completion_suggestions be k prompt st session pre :
  getSession st k = Some session -> status session = active ->
  assistants_retrieve be = true ->
  truthy (threadId session) = true ∨ is_Some (threads_create be) ->
  messages_create be = true ->
  runs_stream be = Some (pre ++ [EvEnd]) ->
  Forall (fun ev => is_terminal ev = false) pre ->
  let r := handlePrompt be k prompt st in
  let payload := match generate_try (chat_completion be) with
                 | inr v => v
                 | inl _ => JArr []
                 end in
  emitted r =
    flat_map forward_text pre ++ [responseComplete; suggestions payload] ∧
  generate_calls r = [(prompt, reply_text pre)] ∧
  List.filter is_error (emitted r) = [] ∧
  hasSession (final r) k = true.
Proof.
  intros Hget Hact Hret Hthr Hmsg Hstream Hpre. simpl.
  destruct (handlePrompt_streams be k prompt st session _
              Hget Hact Hret Hthr Hmsg Hstream) as (s1 & Hact1 & _ & ->).
  rewrite (consume_stream_terminal be k prompt pre EvEnd _ Hpre).
  unfold on_event, generate.
  destruct (generate_try (chat_completion be)) as [x|v]; simpl.
  - rewrite <- app_assoc. split; [done|]. split; [done|]. split.
    + rewrite List.filter_app, text_events_no_error. reflexivity.
    + rewrite hasSession_scheduleCleanup. by apply hasSession_put_active.
  - rewrite <- app_assoc. split; [done|]. split; [done|]. split.
    + rewrite List.filter_app, text_events_no_error. reflexivity.
    + rewrite hasSession_scheduleCleanup. by apply hasSession_put_active.
Qed.

Lemma normal_completion_suggestions_witness :
  let r := handlePrompt be_ok "s1" "hello" st_created in
  emitted r =
    [textCreated ""; textDelta "Hi" "Hi"; responseComplete;
     suggestions (JArr [JStr "a"; JStr "b"; JStr "c"])] ∧
  generate_calls r = [("hello", "Hi")].
Proof.
  simpl.
  destruct (normal_completion_suggestions be_ok "s1" "hello" st_created
    (mkSession None 0 None active)
    [EvTextCreated ""; EvTextDelta "Hi" "Hi"]
    eq_refl eq_refl eq_refl (or_intror (ex_intro _ "thread_1" eq_refl))
    eq_refl eq_refl
    ltac:(repeat constructor))
    as (Hout & Hcalls & _).
  split; [exact Hout|exact Hcalls].
Defined.

(** * Further properties of the session manager *)

Lemma delete_absent {V} (m : list (string * V)) k :
  JsMap.get k m = None -> JsMap.delete k m = m.
Proof.
  induction m as [|[k0 v0] m IH]; simpl; [done|].
  case_decide; [discriminate|]. intros H'. by rewrite IH.
Qed.

Lemma delete_set_absent {V} (m : list (string * V)) k v :
  JsMap.get k m = None -> JsMap.delete k (JsMap.set k v m) = m.
Proof.
  induction m as [|[k0 v0] m IH]; simpl.
  - by case_decide.
  - case_decide as E; [discriminate|]. intros H'. simpl.
    case_decide; [done|]. by rewrite IH.
Qed.

Lemma Sound_init : Sound init.
Proof.
  split; [intros k s h H; discriminate|].
  split; [intros k s H; discriminate|].
  intros h tm H. simpl in H. by rewrite lookup_empty in H.
Qed.

Lemma Sound_put k s st :
  Sound st -> (lastActive s ≤ now st)%Z ->
  (∀ h, timeoutId s = Some h ->
     h < next_handle st ∧ ∀ tm, timers st !! h = Some tm -> timer_arg tm = k) ->
  Sound (put k s st).
Proof.
  intros [Hex [Hla Hdue]] Hs Hh. split; [|split; [|exact Hdue]].
  - intros k' s' h Hget Ht. rewrite getSession_put in Hget.
    case_decide as E.
    + injection Hget as <-. subst k'. by apply Hh.
    + by eapply Hex.
  - intros k' s' Hget. rewrite getSession_put in Hget.
    case_decide as E; [by injection Hget as <-|by eapply Hla].
Qed.

Lemma Sound_put_same k s s0 st :
  Sound st -> getSession st k = Some s0 -> timeoutId s = timeoutId s0 ->
  (lastActive s ≤ now st)%Z -> Sound (put k s st).
Proof.
  intros HS Hget Ht Hla. apply Sound_put; [done..|].
  intros h Hh. destruct HS as [Hex _]. eapply Hex; [exact Hget|congruence].
Qed.

Lemma Sound_clearTimeout h st : Sound st -> Sound (clearTimeout h st).
Proof.
  intros [Hex [Hla Hdue]]. split; [|split; [exact Hla|]].
  - intros k s h' Hget Ht. destruct (Hex k s h' Hget Ht) as [Hlt Harg].
    split; [exact Hlt|]. intros tm Hh'. simpl in Hh'.
    apply lookup_delete_Some in Hh' as [_ Hh']. by apply Harg.
  - intros h' tm Hh'. simpl in Hh'.
    apply lookup_delete_Some in Hh' as [_ Hh']. by eapply Hdue.
Qed.

Lemma Sound_clear_opt (o : option nat) st :
  Sound st -> Sound (match o with Some h => clearTimeout h st | None => st end).
Proof. destruct o; [apply Sound_clearTimeout|done]. Qed.

Lemma Sound_scheduleCleanup k st : Sound st -> Sound (scheduleCleanup k st).
Proof.
  intros HS. unfold scheduleCleanup.
  destruct (getSession st k) as [session|] eqn:Hget; [|exact HS].
  destruct (is_active (status session)); simpl; [|exact HS].
  pose proof (Sound_clear_opt (timeoutId session) st HS) as HS1.
  set (st1 := match timeoutId session with
              | Some h => clearTimeout h st | None => st end) in *.
  assert (Hsess : ∀ k', getSession st1 k' = getSession st k')
    by (intros k'; subst st1; by destruct (timeoutId session)).
  assert (Hnow : now st1 = now st)
    by (subst st1; by destruct (timeoutId session)).
  destruct HS as [_ [Hla0 _]].
  destruct HS1 as [Hex [Hla Hdue]]. split; [|split].
  - intros k' s' h Hg Ht. rewrite getSession_put in Hg. simpl.
    case_decide as E.
    + injection Hg as <-. simpl in Ht. injection Ht as <-. subst k'.
      split; [lia|]. intros tm. rewrite lookup_insert_eq. by intros [= <-].
    + change (getSession st1 k' = Some s') in Hg.
      destruct (Hex k' s' h Hg Ht) as [Hlt Harg]. split; [lia|].
      intros tm. rewrite lookup_insert_ne by lia. apply Harg.
  - intros k' s' Hg. rewrite getSession_put in Hg. simpl. rewrite Hnow.
    case_decide as E.
    + injection Hg as <-. simpl. by eapply Hla0.
    + change (getSession st1 k' = Some s') in Hg. rewrite Hsess in Hg.
      by eapply Hla0.
  - intros h tm. simpl. rewrite lookup_insert. case_decide as E.
    + intros [= <-]. simpl. lia.
    + apply Hdue.
Qed.

Lemma Sound_refreshSession k st : Sound st -> Sound (snd (refreshSession k st)).
Proof.
  intros HS. unfold refreshSession.
  destruct (getSession st k) as [session|] eqn:Hget; [|exact HS].
  destruct (is_active (status session)); simpl; [|exact HS].
  apply Sound_scheduleCleanup.
  assert (HS1 : Sound (put k (with_lastActive (now st) session) st)).
  { eapply Sound_put_same; [done..|simpl; lia]. }
  destruct (timeoutId session) as [h0|] eqn:Ht; [|exact HS1].
  apply Sound_put; [by apply Sound_clearTimeout|simpl; lia|].
  intros h. discriminate.
Qed.

Lemma Sound_markSessionForDeletion k st :
  Sound st -> Sound (snd (markSessionForDeletion k st)).
Proof.
  intros HS. unfold markSessionForDeletion.
  destruct (getSession st k) as [session|] eqn:Hget; [|exact HS].
  simpl. eapply Sound_put_same; [done..|].
  destruct HS as [_ [Hla _]]. simpl. by eapply Hla.
Qed.

Lemma Sound_deleteSession k st : Sound st -> Sound (deleteSession k st).
Proof.
  intros HS. unfold deleteSession.
  set (st1 := match getSession st k with
              | Some session =>
                  match timeoutId session with
                  | Some h => clearTimeout h st | None => st end
              | None => st end).
  assert (HS1 : Sound st1).
  { subst st1. destruct (getSession st k) as [s|]; [|done].
    by apply Sound_clear_opt. }
  destruct HS1 as [Hex [Hla Hdue]]. split; [|split; [|exact Hdue]].
  - intros k' s' h Hg Ht.
    unfold getSession, set_sessions in Hg. simpl in Hg.
    rewrite get_delete in Hg. case_decide; [discriminate|].
    by eapply Hex.
  - intros k' s' Hg.
    unfold getSession, set_sessions in Hg. simpl in Hg.
    rewrite get_delete in Hg. case_decide; [discriminate|].
    by eapply Hla.
Qed.

Lemma Sound_bindThread k tid st : Sound st -> Sound (bindThread k tid st).
Proof.
  intros HS. unfold bindThread.
  destruct (getSession st k) as [session|] eqn:Hget; [|exact HS].
  eapply Sound_put_same; [done..|].
  destruct HS as [_ [Hla _]]. simpl. by eapply Hla.
Qed.

Lemma Sound_handlePrompt be k prompt st :
  Sound st -> Sound (final (handlePrompt be k prompt st)).
Proof.
  intros HS. unfold handlePrompt.
  destruct (getSession st k) as [session|] eqn:Hget; [|exact HS].
  destruct (is_active (status session)); simpl; [|exact HS].
  destruct (assistants_retrieve be); simpl; [|exact HS].
  assert (Hla : (lastActive session ≤ now st)%Z)
    by (destruct HS as [_ [Hla _]]; by eapply Hla).
  set (bound := if negb (truthy (threadId session)) then _ else _).
  assert (Hb : ∀ s1, bound = Some s1 -> Sound (put k s1 st)).
  { intros s1. subst bound.
    destruct (negb (truthy (threadId session))).
    - destruct (threads_create be); [|discriminate].
      intros [= <-]. by eapply Sound_put_same.
    - intros [= <-]. by eapply Sound_put_same. }
  destruct bound as [s1|]; [|exact HS].
  specialize (Hb s1 eq_refl).
  destruct (messages_create be); simpl; [|exact Hb].
  destruct (runs_stream be) as [events|]; [|exact Hb].
  unfold consume_stream.
  change (put k s1 st)
    with (final (turn_run (mkTurn "" (mkRun [] [] (put k s1 st))))) in Hb.
  revert Hb. generalize (mkTurn "" (mkRun [] [] (put k s1 st))).
  induction events as [|ev events IH]; intros t Ht; simpl; [done|].
  apply IH. rewrite on_event_final. destruct ev; try done.
  by apply Sound_scheduleCleanup.
Qed.

Lemma Sound_cleanupSession be k st :
  Sound st -> Sound (final (cleanupSession be k st)).
Proof.
  intros HS. unfold cleanupSession.
  destruct (getSession st k) as [session|] eqn:Hget; [|exact HS].
  pose proof (Sound_markSessionForDeletion k st HS) as HS1.
  destruct (markSessionForDeletion k st) as [marked st1]. simpl in HS1.
  destruct marked; simpl; [|exact HS1].
  destruct (truthy (threadId session)); [|by apply Sound_deleteSession].
  destruct (threads_del be _) as [|e]; [by apply Sound_deleteSession|].
  case_bool_decide; [by apply Sound_deleteSession|exact HS1].
Qed.

Lemma Sound_cleanupExpiredSessions be st :
  Sound st -> Sound (final (cleanupExpiredSessions be st)).
Proof.
  unfold cleanupExpiredSessions.
  generalize (getExpiredSessions st). intros ids.
  change st with (final (mkRun [] [] st)) at 1.
  generalize (mkRun [] [] st). induction ids as [|k ids IH]; intros r HS; [done|].
  simpl. apply IH. simpl. by apply Sound_cleanupSession.
Qed.

Lemma Sound_exec op st : Sound st -> enabled st op -> Sound (exec op st).
Proof.
  intros HS Hen. destruct op; simpl.
  - apply Sound_put; [done|simpl; lia|]. intros h. discriminate.
  - by apply Sound_refreshSession.
  - by apply Sound_scheduleCleanup.
  - by apply Sound_markSessionForDeletion.
  - by apply Sound_deleteSession.
  - by apply Sound_bindThread.
  - by apply Sound_handlePrompt.
  - by apply Sound_cleanupSession.
  - by apply Sound_cleanupExpiredSessions.
  - destruct (timers st !! h); [|done].
    by apply Sound_cleanupSession, Sound_clearTimeout.
  - simpl in Hen. destruct HS as [Hex [Hla Hdue]]. split; [exact Hex|].
    split; simpl.
    + intros k s Hg. specialize (Hla k s Hg). lia.
    + intros h tm Hh. specialize (Hdue h tm Hh). lia.
Qed.

Lemma reachable_Sound st : reachable st -> Sound st.
Proof.
  induction 1 as [|st op _ IH Hen]; [apply Sound_init | by apply Sound_exec].
Qed.

(** A field that an in-place update leaves alone reads the same before and
    after the update. *)
Lemma proj_put {A} (f : Session -> A) k s s0 st k' :
  getSession st k = Some s0 -> f s = f s0 ->
  f <$> getSession (put k s st) k' = f <$> getSession st k'.
Proof.
  intros Hget Hf. rewrite getSession_put. case_decide as E; [|done].
  subst k'. rewrite Hget. simpl. by rewrite Hf.
Qed.

Lemma proj_scheduleCleanup {A} (f : Session -> A) k st k' :
  (∀ h s, f (with_timeoutId h s) = f s) ->
  f <$> getSession (scheduleCleanup k st) k' = f <$> getSession st k'.
Proof.
  intros Hf. unfold scheduleCleanup.
  destruct (getSession st k) as [session|] eqn:Hget; [|done].
  destruct (is_active (status session)); simpl; [|done].
  rewrite (proj_put f k _ session); [| |apply Hf].
  - by destruct (timeoutId session).
  - simpl. by destruct (timeoutId session).
Qed.

Lemma proj_refreshSession {A} (f : Session -> A) k st k' :
  (∀ h s, f (with_timeoutId h s) = f s) ->
  (∀ t s, f (with_lastActive t s) = f s) ->
  f <$> getSession (snd (refreshSession k st)) k' = f <$> getSession st k'.
Proof.
  intros Hf1 Hf2. unfold refreshSession.
  destruct (getSession st k) as [session|] eqn:Hget; [|done].
  destruct (is_active (status session)); simpl; [|done].
  rewrite proj_scheduleCleanup by done.
  assert (H1 : f <$> getSession (put k (with_lastActive (now st) session) st) k'
               = f <$> getSession st k')
    by (eapply proj_put; [done|apply Hf2]).
  destruct (timeoutId session); [|done].
  rewrite <- H1.
  rewrite (proj_put f k _ (with_lastActive (now st) session)); [done| |].
  - rewrite getSession_clearTimeout, getSession_put. by case_decide.
  - apply Hf1.
Qed.

Lemma proj_fold_on_event {A} (f : Session -> A) be k prompt events t k' :
  (∀ h s, f (with_timeoutId h s) = f s) ->
  f <$> getSession
          (final (turn_run (fold_left (on_event be k prompt) events t))) k'
  = f <$> getSession (final (turn_run t)) k'.
Proof.
  intros Hf. revert t. induction events as [|ev events IH]; intros t; [done|].
  simpl. rewrite IH, on_event_final. destruct ev; try done.
  by apply proj_scheduleCleanup.
Qed.

Lemma proj_handlePrompt {A} (f : Session -> A) be k prompt st k' :
  (∀ h s, f (with_timeoutId h s) = f s) ->
  (∀ t s, f (with_threadId t s) = f s) ->
  f <$> getSession (final (handlePrompt be k prompt st)) k'
  = f <$> getSession st k'.
Proof.
  intros Hf1 Hf2. unfold handlePrompt.
  destruct (getSession st k) as [session|] eqn:Hget; [|done].
  destruct (is_active (status session)); simpl; [|done].
  destruct (assistants_retrieve be); simpl; [|done].
  set (bound := if negb (truthy (threadId session)) then _ else _).
  assert (Hb : ∀ s1, bound = Some s1 ->
            f <$> getSession (put k s1 st) k' = f <$> getSession st k').
  { intros s1. subst bound.
    destruct (negb (truthy (threadId session))).
    - destruct (threads_create be); [|discriminate].
      intros [= <-]. eapply proj_put; [done|apply Hf2].
    - intros [= <-]. by eapply proj_put. }
  destruct bound as [s1|]; [|done].
  specialize (Hb s1 eq_refl).
  destruct (messages_create be); simpl; [|exact Hb].
  destruct (runs_stream be) as [events|]; [|exact Hb].
  unfold consume_stream. by rewrite proj_fold_on_event.
Qed.

Lemma hasSession_status st k :
  hasSession st k = true <-> status <$> getSession st k = Some active.
Proof.
  rewrite hasSession_spec. destruct (getSession st k) as [s|]; simpl.
  - split; [intros (s' & [= <-] & ->); done|]. intros [= H]. eauto.
  - split; [intros (? & ? & ?); discriminate|discriminate].
Qed.

Lemma hasSession_of_status st st' k :
  status <$> getSession st' k = status <$> getSession st k ->
  hasSession st' k = hasSession st k.
Proof.
  intros H. apply eq_true_iff_eq. by rewrite !hasSession_status, H.
Qed.

Lemma getSession_markSessionForDeletion k st k' :
  getSession (snd (markSessionForDeletion k st)) k' =
  if decide (k' = k) then with_status pending_deletion <$> getSession st k
  else getSession st k'.
Proof.
  unfold markSessionForDeletion.
  destruct (getSession st k) as [s|] eqn:Hget; simpl.
  - rewrite getSession_put. by case_decide.
  - case_decide; [by subst|done].
Qed.

Lemma getSession_deleteSession_other k st k' :
  k' ≠ k -> getSession (deleteSession k st) k' = getSession st k'.
Proof.
  intros Hne. unfold deleteSession, getSession, set_sessions. simpl.
  rewrite get_delete. case_decide; [done|].
  destruct (JsMap.get k (sessions st)) as [s|]; [|done].
  by destruct (timeoutId s).
Qed.

(** What [cleanupSession] does to the registry: every other session is
    left alone, and the session it is called for ends up removed or marked. *)
Lemma cleanupSession_final be k st :
  final (cleanupSession be k st) = st ∨
  final (cleanupSession be k st) = snd (markSessionForDeletion k st) ∨
  final (cleanupSession be k st) =
    deleteSession k (snd (markSessionForDeletion k st)).
Proof.
  unfold cleanupSession.
  destruct (getSession st k) as [session|] eqn:Hget; [|by left].
  destruct (markSessionForDeletion k st) as [marked st1]. simpl.
  destruct marked; simpl; [|by right; left].
  destruct (truthy (threadId session)); [|by right; right].
  destruct (threads_del be _) as [|e]; [by right; right|].
  case_bool_decide; [by right; right|by right; left].
Qed.

Lemma getSession_cleanupSession_other be k st k' :
  k' ≠ k -> getSession (final (cleanupSession be k st)) k' = getSession st k'.
Proof.
  intros Hne.
  destruct (cleanupSession_final be k st) as [->|[->| ->]]; [done| |].
  - rewrite getSession_markSessionForDeletion. by case_decide.
  - rewrite getSession_deleteSession_other by done.
    rewrite getSession_markSessionForDeletion. by case_decide.
Qed.

Lemma getSession_cleanupSession_self be k st :
  getSession (final (cleanupSession be k st)) k = None ∨
  getSession (final (cleanupSession be k st)) k
    = with_status pending_deletion <$> getSession st k.
Proof.
  unfold cleanupSession.
  destruct (getSession st k) as [session|] eqn:Hget; [|left; exact Hget].
  pose proof (getSession_markSessionForDeletion k st k) as Hm.
  destruct (markSessionForDeletion k st) as [marked st1]. simpl in Hm.
  rewrite decide_True, Hget in Hm by done.
  destruct marked; simpl; [|by right].
  destruct (truthy (threadId session));
    [|left; apply getSession_deleteSession].
  destruct (threads_del be _) as [|e]; [left; apply getSession_deleteSession|].
  case_bool_decide; [left; apply getSession_deleteSession|by right].
Qed.

Lemma hasSession_cleanupSession_self be k st :
  hasSession (final (cleanupSession be k st)) k = false.
Proof.
  apply not_true_is_false. rewrite hasSession_status.
  destruct (getSession_cleanupSession_self be k st) as [-> | ->]; [done|].
  by destruct (getSession st k).
Qed.

(** X1: [createSession] followed by a lookup. The id handed back is the one
    drawn; under it the registry holds an active session with no thread, no
    timer and [lastActive] equal to the current time; every other id reads
    as before and no timer is touched. *)
Theorem createSession_lookup uuid st :
  let st' := snd (createSession uuid st) in
  fst (createSession uuid st) = uuid ∧
  getSession st' uuid = Some (mkSession None (now st) None active) ∧
  hasSession st' uuid = true ∧
  (∀ k, k ≠ uuid -> getSession st' k = getSession st k) ∧
  timers st' = timers st.
Proof.
  simpl. split; [done|]. split; [|split; [|split; [|done]]].
  - rewrite getSession_put. by case_decide.
  - by apply hasSession_put_active.
  - intros k Hne. rewrite getSession_put. by case_decide.
Qed.

(** X2: creating a session under an id that is not in use and deleting it
    again gives back the state one started from. *)
Theorem createSession_deleteSession uuid st :
  getSession st uuid = None ->
  deleteSession uuid (snd (createSession uuid st)) = st.
Proof.
  intros Hfresh. unfold deleteSession. simpl.
  rewrite getSession_put, decide_True by done. simpl.
  unfold set_sessions, put, set_sessions. simpl.
  rewrite delete_set_absent by done. by destruct st.
Qed.

Lemma createSession_deleteSession_witness :
  deleteSession "s2" (snd (createSession "s2" st_armed)) = st_armed.
Proof. apply (createSession_deleteSession "s2" st_armed). reflexivity. Defined.

Lemma deleteSession_absent k st :
  getSession st k = None -> deleteSession k st = st.
Proof.
  intros Habs. unfold deleteSession. rewrite Habs.
  unfold set_sessions. rewrite delete_absent by done. by destruct st.
Qed.

(** X3: [deleteSession] is idempotent. Deleting an id that is not in the
    registry changes nothing, deleting twice is the same as deleting once,
    the deleted id is gone and every other session is untouched. *)
Theorem deleteSession_idempotent k st :
  (getSession st k = None -> deleteSession k st = st) ∧
  deleteSession k (deleteSession k st) = deleteSession k st ∧
  getSession (deleteSession k st) k = None ∧
  (∀ k', k' ≠ k -> getSession (deleteSession k st) k' = getSession st k').
Proof.
  split; [apply deleteSession_absent|]. split; [|split].
  - apply deleteSession_absent, getSession_deleteSession.
  - apply getSession_deleteSession.
  - intros k' Hne. by apply getSession_deleteSession_other.
Qed.

Lemma deleteSession_idempotent_witness :
  deleteSession "s2" st_armed = st_armed ∧
  deleteSession "s1" (deleteSession "s1" st_armed) = deleteSession "s1" st_armed.
Proof.
  destruct (deleteSession_idempotent "s2" st_armed) as (H & _).
  destruct (deleteSession_idempotent "s1" st_armed) as (_ & H' & _).
  split; [exact (H eq_refl)|exact H'].
Defined.

(** X4: in a reachable state [deleteSession] cancels the timers of the
    deleted session and no other: the timers pending afterwards are exactly
    the timers that were pending for other sessions. *)
Theorem deleteSession_cancels_own_timer st k h tm :
  reachable st ->
  timers (deleteSession k st) !! h = Some tm <->
  timers st !! h = Some tm ∧ timer_arg tm ≠ k.
Proof.
  intros Hreach.
  pose proof (reachable_Inv st Hreach) as HI.
  pose proof (reachable_Sound st Hreach) as [Hex _].
  split.
  - intros Hh. split; [by eapply lookup_weaken, timers_deleteSession|].
    destruct (Inv_deleteSession k st HI) as [Hown _].
    destruct (Hown h tm Hh) as (s & Hs & _). intros <-.
    by rewrite getSession_deleteSession in Hs.
  - intros [Hh Hne]. unfold deleteSession. simpl.
    destruct (getSession st k) as [s|] eqn:Hget; [|done].
    destruct (timeoutId s) as [h0|] eqn:Ht; [|done]. simpl.
    rewrite lookup_delete_ne; [done|]. intros <-.
    destruct (Hex k s h0 Hget Ht) as [_ Harg]. by specialize (Harg tm Hh).
Qed.

Lemma deleteSession_cancels_own_timer_witness :
  reachable st_armed ∧ timers (deleteSession "s1" st_armed) !! 0 = None.
Proof.
  assert (Hreach : reachable st_armed).
  { apply reachable_step; [|exact I].
    apply reachable_step; [apply reachable_init|reflexivity]. }
  split; [exact Hreach|].
  destruct (timers (deleteSession "s1" st_armed) !! 0) as [tm|] eqn:E; [|done].
  apply (deleteSession_cancels_own_timer st_armed "s1" 0 tm Hreach) in E
    as [E Hne].
  injection E as <-. by destruct Hne.
Defined.

(** X5: in a reachable state, re-arming a session ([scheduleCleanup],
    [refreshSession]) leaves every timer of every other session pending. *)
Theorem rearm_keeps_other_timers st k h tm :
  reachable st -> timers st !! h = Some tm -> timer_arg tm ≠ k ->
  timers (scheduleCleanup k st) !! h = Some tm ∧
  timers (snd (refreshSession k st)) !! h = Some tm.
Proof.
  intros Hreach Hh Hne.
  pose proof (reachable_Sound st Hreach) as [Hex _].
  pose proof (reachable_Inv st Hreach) as [_ Hbelow].
  assert (Hsched : ∀ st', (∀ k', getSession st' k' = getSession st k' ∨ k' = k) ->
     next_handle st' = next_handle st ->
     (∀ s, getSession st' k = Some s -> ∀ h0, timeoutId s = Some h0 -> h0 ≠ h) ->
     timers st' !! h = Some tm ->
     timers (scheduleCleanup k st') !! h = Some tm).
  { intros st' _ Hn Hk Hh'. unfold scheduleCleanup.
    destruct (getSession st' k) as [s|] eqn:Hget; [|done].
    destruct (is_active (status s)); simpl; [|done].
    assert (h ≠ next_handle st') by (rewrite Hn; specialize (Hbelow h tm Hh); lia).
    destruct (timeoutId s) as [h0|] eqn:Ht; simpl.
    - rewrite lookup_insert_ne by done.
      rewrite lookup_delete_ne; [done|]. by eapply Hk.
    - by rewrite lookup_insert_ne. }
  assert (Hown : ∀ s h0, getSession st k = Some s -> timeoutId s = Some h0 ->
                 h0 ≠ h).
  { intros s h0 Hget Ht <-. destruct (Hex k s h0 Hget Ht) as [_ Harg].
    by specialize (Harg tm Hh). }
  split.
  - apply Hsched; [by left|done| |done]. intros s Hget h0 Ht. by eapply Hown.
  - unfold refreshSession.
    destruct (getSession st k) as [session|] eqn:Hget; [|done].
    destruct (is_active (status session)); simpl; [|done].
    apply Hsched.
    + intros k'. destruct (decide (k' = k)); [by right|left].
      destruct (timeoutId session); rewrite ?getSession_put;
        repeat case_decide; try done.
      rewrite getSession_clearTimeout, getSession_put. by case_decide.
    + by destruct (timeoutId session).
    + intros s Hs h0 Ht0.
      destruct (timeoutId session) as [h1|] eqn:Ht1.
      * rewrite getSession_put, decide_True in Hs by done.
        injection Hs as <-. discriminate.
      * rewrite getSession_put, decide_True in Hs by done.
        injection Hs as <-. simpl in Ht0. congruence.
    + destruct (timeoutId session) as [h1|] eqn:Ht1; [|done]. simpl.
      rewrite lookup_delete_ne; [done|]. by eapply Hown.
Qed.

Lemma rearm_keeps_other_timers_witness :
  let st := exec (OpRefresh "s1") (exec (OpCreate "s2") st_armed) in
  timers (scheduleCleanup "s2" st) !! 1 = Some (mkTimer "s1" 1800000).
Proof.
  simpl.
  assert (Hreach : reachable (exec (OpRefresh "s1") (exec (OpCreate "s2") st_armed))).
  { apply reachable_step; [|exact I]. apply reachable_step; [|reflexivity].
    apply reachable_step; [|exact I].
    apply reachable_step; [apply reachable_init|reflexivity]. }
  apply (rearm_keeps_other_timers _ "s2" 1 (mkTimer "s1" 1800000) Hreach);
    [reflexivity|discriminate].
Defined.

Lemma timers_scheduleCleanup_new k st session :
  getSession st k = Some session -> status session = active ->
  timers (scheduleCleanup k st) !! next_handle st
    = Some (mkTimer k (now st + SESSION_TIMEOUT)).
Proof.
  intros Hget Hact. unfold scheduleCleanup. rewrite Hget, Hact. simpl.
  destruct (timeoutId session); simpl; apply lookup_insert_eq.
Qed.

(** X6: [refreshSession] on an active session succeeds. It returns the
    session as stored afterwards: same thread, still active, [lastActive]
    set to the current time and a new handle whose timer is pending and due
    30 minutes from now; every other session reads as before. *)
Theorem refreshSession_success st k s :
  getSession st k = Some s -> status s = active ->
  let s' := mkSession (threadId s) (now st) (Some (next_handle st)) active in
  let st' := snd (refreshSession k st) in
  fst (refreshSession k st) = Some s' ∧
  getSession st' k = Some s' ∧
  timers st' !! next_handle st = Some (mkTimer k (now st + 30 * 60 * 1000)) ∧
  (∀ k', k' ≠ k -> getSession st' k' = getSession st k').
Proof.
  intros Hget Hact. simpl. unfold refreshSession. rewrite Hget, Hact. simpl.
  set (st2 := match timeoutId s with Some h0 => _ | None => _ end).
  assert (Hn : next_handle st2 = next_handle st ∧ now st2 = now st)
    by (subst st2; by destruct (timeoutId s)).
  destruct Hn as [Hn Hnow].
  assert (Hget2 : getSession st2 k
            = Some (mkSession (threadId s) (now st) None active)).
  { subst st2. destruct (timeoutId s) eqn:Ht; rewrite getSession_put;
      rewrite decide_True by done; unfold with_lastActive, with_timeoutId;
      simpl; rewrite ?Ht, ?Hact; done. }
  assert (Hother : ∀ k', k' ≠ k -> getSession st2 k' = getSession st k').
  { intros k' Hne. subst st2. destruct (timeoutId s);
      rewrite ?getSession_put, ?getSession_clearTimeout, ?getSession_put;
      repeat case_decide; done. }
  pose proof (getSession_scheduleCleanup_active k st2 _ Hget2 eq_refl) as Hs.
  rewrite Hn in Hs. split; [exact Hs|]. split; [exact Hs|]. split.
  - rewrite <- Hn, <- Hnow. by eapply timers_scheduleCleanup_new.
  - intros k' Hne. rewrite <- Hother by done.
    unfold scheduleCleanup. rewrite Hget2. simpl.
    rewrite getSession_put. by case_decide.
Qed.

Lemma refreshSession_success_witness :
  fst (refreshSession "s1" st_created)
    = Some (mkSession None 0 (Some 0) active) ∧
  timers (snd (refreshSession "s1" st_created)) !! 0
    = Some (mkTimer "s1" 1800000).
Proof.
  destruct (refreshSession_success st_created "s1"
              (mkSession None 0 None active) eq_refl eq_refl)
    as (Hres & _ & Htm & _).
  split; [exact Hres|exact Htm].
Defined.

Lemma hasSession_exec_origin op st k :
  hasSession (exec op st) k = true ->
  hasSession st k = true ∨ op = OpCreate k.
Proof.
  destruct op; simpl.
  - destruct (decide (k = uuid)) as [->|Hne]; [by right|left].
    rewrite <- H. symmetry. apply hasSession_of_status.
    rewrite getSession_put. by case_decide.
  - intros H. left. rewrite <- H. symmetry.
    apply hasSession_of_status. by apply proj_refreshSession.
  - intros H. left. by rewrite hasSession_scheduleCleanup in H.
  - intros H. left. apply hasSession_status in H.
    rewrite getSession_markSessionForDeletion in H.
    case_decide; [by destruct (getSession st sessionId)|].
    by apply hasSession_status.
  - intros H. left. destruct (decide (k = sessionId)) as [->|Hne].
    + apply hasSession_status in H.
      by rewrite getSession_deleteSession in H.
    + rewrite <- H. symmetry. apply hasSession_of_status.
      by rewrite getSession_deleteSession_other.
  - intros H. left. rewrite <- H. symmetry. apply hasSession_of_status.
    unfold bindThread. destruct (getSession st sessionId) eqn:Hget; [|done].
    by eapply proj_put.
  - intros H. left. rewrite <- H. symmetry. apply hasSession_of_status.
    by apply proj_handlePrompt.
  - intros H. left. destruct (decide (k = sessionId)) as [->|Hne].
    + by rewrite hasSession_cleanupSession_self in H.
    + rewrite <- H. symmetry. apply hasSession_of_status.
      by rewrite getSession_cleanupSession_other.
  - unfold cleanupExpiredSessions.
    generalize (getExpiredSessions st). intros ids.
    change (hasSession st k) with (hasSession (final (mkRun [] [] st)) k).
    generalize (mkRun [] [] st).
    induction ids as [|k0 ids IH]; intros r H; [by left|].
    simpl in H. apply IH in H as [H|H]; [|by right]. left. simpl in H.
    destruct (decide (k = k0)) as [->|Hne].
    + by rewrite hasSession_cleanupSession_self in H.
    + rewrite <- H. symmetry. apply hasSession_of_status.
      by rewrite getSession_cleanupSession_other.
  - intros H. left. destruct (timers st !! h) as [tm|]; [|done].
    destruct (decide (k = timer_arg tm)) as [->|Hne].
    + by rewrite hasSession_cleanupSession_self in H.
    + rewrite <- H. symmetry. apply hasSession_of_status.
      by rewrite getSession_cleanupSession_other.
  - intros H. by left.
Qed.

(** X7: there is no way back to [active]. Once an id is not active (its
    session is marked for deletion, or it has none), it stays so through
    every sequence of operations in which [createSession] does not hand out
    that same id again. *)
Theorem inactive_stays_inactive ops st k :
  hasSession st k = false ->
  Forall (fun op => op ≠ OpCreate k) ops ->
  hasSession (fold_left (fun st op => exec op st) ops st) k = false.
Proof.
  intros Hno Hops. revert st Hno.
  induction Hops as [|op ops Hop _ IH]; intros st Hno; [done|].
  simpl. apply IH. apply not_true_is_false. intros H.
  apply hasSession_exec_origin in H as [H|H]; congruence.
Qed.

Lemma inactive_stays_inactive_witness :
  hasSession
    (fold_left (fun st op => exec op st)
       [OpRefresh "s1"; OpSchedule "s1"; OpPrompt be_ok "s1" "hello"; OpTick 5]
       st_marked) "s1" = false.
Proof.
  apply (inactive_stays_inactive _ st_marked "s1"); [reflexivity|].
  repeat constructor; discriminate.
Defined.

(** X8: marking a session for deletion keeps its thread, its [lastActive]
    and its handle, and takes it out of service at once: [hasSession] is
    false, [refreshSession] fails, [scheduleCleanup] does nothing, and the
    session is listed by [getExpiredSessions] whatever its age. Other
    sessions are untouched. *)
Theorem markSessionForDeletion_effect st k s :
  getSession st k = Some s ->
  let st' := snd (markSessionForDeletion k st) in
  getSession st' k = Some (with_status pending_deletion s) ∧
  hasSession st' k = false ∧
  refreshSession k st' = (None, st') ∧
  scheduleCleanup k st' = st' ∧
  In k (getExpiredSessions st') ∧
  (∀ k', k' ≠ k -> getSession st' k' = getSession st k').
Proof.
  intros Hget. simpl.
  assert (Hg : getSession (snd (markSessionForDeletion k st)) k
               = Some (with_status pending_deletion s)).
  { rewrite getSession_markSessionForDeletion, decide_True, Hget by done.
    done. }
  split; [exact Hg|]. split; [|split; [|split; [|split]]].
  - apply not_true_is_false. rewrite hasSession_status, Hg. discriminate.
  - unfold refreshSession. by rewrite Hg.
  - unfold scheduleCleanup. by rewrite Hg.
  - rewrite getExpiredSessions_filter. apply in_map_iff.
    exists (k, with_status pending_deletion s). split; [done|].
    apply filter_In. split; [by apply get_In|done].
  - intros k' Hne. rewrite getSession_markSessionForDeletion. by case_decide.
Qed.

Lemma markSessionForDeletion_effect_witness :
  hasSession (snd (markSessionForDeletion "s1" st_created)) "s1" = false ∧
  In "s1" (getExpiredSessions (snd (markSessionForDeletion "s1" st_created))).
Proof.
  destruct (markSessionForDeletion_effect st_created "s1"
              (mkSession None 0 None active) eq_refl)
    as (_ & Hhas & _ & _ & Hin & _).
  split; [exact Hhas|exact Hin].
Defined.

Lemma expired_sublist t (m : list (string * Session)) :
  map fst (List.filter (fun p => expired t (snd p)) m) `sublist_of` map fst m.
Proof.
  induction m as [|[k s] m IH]; simpl; [constructor|].
  destruct (expired t s); simpl; by constructor.
Qed.

(** X9: [getExpiredSessions] lists ids in the order in which the sessions
    were inserted, and in a reachable state it lists no id twice, so one
    sweep cleans each session at most once. *)
Theorem getExpiredSessions_ordered st :
  getExpiredSessions st `sublist_of` map fst (sessions st) ∧
  (reachable st -> NoDup (getExpiredSessions st)).
Proof.
  rewrite getExpiredSessions_filter. split; [apply expired_sublist|].
  intros Hreach. eapply sublist_NoDup; [|apply expired_sublist].
  exact (reachable_keys_unique st Hreach).
Qed.

Lemma getExpiredSessions_ordered_witness :
  getExpiredSessions (exec (OpCreate "s2") st_marked) `sublist_of` ["s1"; "s2"] ∧
  NoDup (getExpiredSessions (exec (OpCreate "s2") st_marked)).
Proof.
  destruct (getExpiredSessions_ordered (exec (OpCreate "s2") st_marked))
    as [Hsub Hnd].
  split; [exact Hsub|]. apply Hnd.
  apply reachable_step; [|reflexivity].
  apply reachable_step; [|exact I]. apply reachable_step; [|exact I].
  apply reachable_step; [apply reachable_init|reflexivity].
Defined.

(** X10: in every reachable state no session has a [lastActive] later than
    the current time, and no pending timer is due more than 30 minutes from
    now. *)
Theorem clock_bounds st :
  reachable st ->
  (∀ k s, getSession st k = Some s -> (lastActive s ≤ now st)%Z) ∧
  (∀ h tm, timers st !! h = Some tm ->
     (timer_due tm ≤ now st + 30 * 60 * 1000)%Z).
Proof. intros Hreach. apply (reachable_Sound st Hreach). Qed.

Lemma clock_bounds_witness :
  let st := exec (OpTick 7) st_armed in
  reachable st ∧
  (∀ h tm, timers st !! h = Some tm -> (timer_due tm ≤ now st + 30 * 60 * 1000)%Z).
Proof.
  simpl.
  assert (Hreach : reachable (exec (OpTick 7) st_armed)).
  { apply reachable_step; [|simpl; lia]. apply reachable_step; [|exact I].
    apply reachable_step; [apply reachable_init|reflexivity]. }
  split; [exact Hreach|]. apply (clock_bounds _ Hreach).
Defined.



(** * Further properties of the chat service *)

Lemma emitted_fold_on_event be k prompt events t e :
  In e (emitted (turn_run (fold_left (on_event be k prompt) events t))) ->
  In e (emitted (turn_run t)) ∨
  (turn_event e ∧ ∀ m, e = error m -> m = "Error during response streaming").
Proof.
  revert t. induction events as [|ev events IH]; intros t H; [by left|].
  simpl in H. apply IH in H as [H|H]; [|by right].
  destruct ev; simpl in H.
  - apply in_app_iff in H as [H|[<-|[]]]; [by left|right].
    split; [exact I|discriminate].
  - apply in_app_iff in H as [H|[<-|[]]]; [by left|right].
    split; [exact I|discriminate].
  - apply in_app_iff in H as [H|[<-|[]]]; [by left|right].
    split; [exact I|]. by intros m [= <-].
  - destruct (generate _ _ _) as [x|v]; simpl in H;
      rewrite ?in_app_iff in H; simpl in H.
    + destruct H as [H|[<-|[]]]; [by left|right].
      split; [exact I|discriminate].
    + destruct H as [[H|[<-|[]]]|[<-|[]]]; [by left|right..];
        (split; [exact I|discriminate]).
Qed.

Lemma fail_In (e : Emit) message : In e [error message] -> e = error message.
Proof. by intros [<-|[]]. Qed.

(** Every event of a turn is a turn event, and an error it reports carries
    one of six messages; the message for a session that is not active needs
    such a session. *)
Lemma handlePrompt_emitted be k prompt st e :
  In e (emitted (handlePrompt be k prompt st)) ->
  turn_event e ∧
  ∀ m, e = error m ->
    (m = "Session is no longer active" ∧ hasSession st k = false) ∨
    (hasSession st k = true ∧
     (m = "Could not retrieve assistant" ∨
      m = "Could not create conversation thread" ∨
      m = "Could not add your message" ∨
      m = "Could not generate response" ∨
      m = "Error during response streaming")).
Proof.
  unfold handlePrompt.
  destruct (getSession st k) as [session|] eqn:Hget.
  - destruct (is_active (status session)) eqn:Hact; simpl.
    + assert (Hhas : hasSession st k = true).
      { apply hasSession_spec. exists session. split; [done|].
        by destruct (status session). }
      destruct (assistants_retrieve be); simpl;
        [|intros ->%fail_In; split; [exact I|]; intros m [= <-];
          right; split; [done|]; tauto].
      destruct (if negb (truthy (threadId session)) then _ else _) as [s1|];
        [|intros ->%fail_In; split; [exact I|]; intros m [= <-];
          right; split; [done|]; tauto].
      destruct (messages_create be); simpl;
        [|intros ->%fail_In; split; [exact I|]; intros m [= <-];
          right; split; [done|]; tauto].
      destruct (runs_stream be) as [events|];
        [|intros ->%fail_In; split; [exact I|]; intros m [= <-];
          right; split; [done|]; tauto].
      intros H. unfold consume_stream in H.
      apply emitted_fold_on_event in H as [[]|[Hev Hm]].
      split; [exact Hev|]. intros m ->. right. split; [done|].
      rewrite (Hm m eq_refl). tauto.
    + intros ->%fail_In. split; [exact I|]. intros m [= <-]. left.
      split; [done|]. apply not_true_is_false. rewrite hasSession_spec.
      intros (s & Hs & Hst). rewrite Hget in Hs. injection Hs as <-.
      by rewrite Hst in Hact.
  - simpl. intros ->%fail_In. split; [exact I|]. intros m [= <-]. left.
    split; [done|]. apply not_true_is_false. rewrite hasSession_spec.
    intros (s & Hs & _). congruence.
Qed.

Lemma hasSession_refreshSession k st k' :
  hasSession (snd (refreshSession k st)) k' = hasSession st k'.
Proof. apply hasSession_of_status. by apply proj_refreshSession. Qed.

(** X12: the errors of [send_prompt]. Without a session on the connection,
    or with one that is not active, the client gets exactly "Invalid
    session" and nothing changes. The messages "Session expired" and
    "Session is no longer active" are never sent by this handler: the checks
    that would send them come after a check that already excludes them. *)
Theorem send_prompt_errors be prompt conn st :
  (truthy conn = false ∨ hasSession st (default "" conn) = false ->
   send_prompt be prompt conn st = mkRun [error "Invalid session"] [] st) ∧
  ¬ In (error "Session expired") (emitted (send_prompt be prompt conn st)) ∧
  ¬ In (error "Session is no longer active")
       (emitted (send_prompt be prompt conn st)).
Proof.
  unfold send_prompt. split; [|].
  - intros [-> | ->]; simpl; [done|]. by rewrite orb_true_r.
  - destruct (negb (truthy conn) || negb (hasSession st (default "" conn)))
      eqn:Hc.
    + split; intros [H|[]]; discriminate.
    + apply orb_false_iff in Hc as [_ Hhas].
      apply negb_false_iff in Hhas.
      destruct (refreshSession_active _ _ Hhas) as [s Hs].
      pose proof (hasSession_refreshSession (default "" conn) st
                    (default "" conn)) as Hkeep.
      destruct (refreshSession (default "" conn) st) as [o st1].
      simpl in Hs, Hkeep. subst o. rewrite Hhas in Hkeep.
      split; intros H; apply handlePrompt_emitted in H as [_ Hm];
        destruct (Hm _ eq_refl) as [[_ Hno]|[_ Hyes]];
        try congruence; intuition discriminate.
Qed.

Lemma send_prompt_errors_witness :
  send_prompt be_ok "hello" None st_created
    = mkRun [error "Invalid session"] [] st_created ∧
  send_prompt be_ok "hello" (Some "s1") st_marked
    = mkRun [error "Invalid session"] [] st_marked.
Proof.
  destruct (send_prompt_errors be_ok "hello" None st_created) as [H1 _].
  destruct (send_prompt_errors be_ok "hello" (Some "s1") st_marked) as [H2 _].
  split; [exact (H1 (or_introl eq_refl))|exact (H2 (or_intror eq_refl))].
Defined.

Lemma now_scheduleCleanup k st : now (scheduleCleanup k st) = now st.
Proof.
  unfold scheduleCleanup. destruct (getSession st k) as [s|]; [|done].
  destruct (is_active (status s)); simpl; [|done]. by destruct (timeoutId s).
Qed.

Lemma armed_scheduleCleanup k st s :
  getSession st k = Some s -> status s = active ->
  armed_at k (lastActive s) (scheduleCleanup k st).
Proof.
  intros Hget Hact.
  exists (with_timeoutId (Some (next_handle st)) s), (next_handle st).
  rewrite now_scheduleCleanup.
  split; [by apply getSession_scheduleCleanup_active|].
  split; [done|]. split; [done|]. split; [done|].
  by eapply timers_scheduleCleanup_new.
Qed.

Lemma armed_put_threadId k t st s x :
  armed_at k t st -> getSession st k = Some s ->
  armed_at k t (put k (with_threadId x s) st).
Proof.
  intros (s0 & h & Hget & Hact & Hla & Ht & Htm) Hs.
  rewrite Hget in Hs. injection Hs as <-.
  exists (with_threadId x s0), h. rewrite getSession_put.
  rewrite decide_True by done. done.
Qed.

Lemma armed_fold_on_event be k prompt events t0 t :
  armed_at k t (final (turn_run t0)) ->
  armed_at k t (final (turn_run (fold_left (on_event be k prompt) events t0))).
Proof.
  revert t0. induction events as [|ev events IH]; intros t0 H; [done|].
  simpl. apply IH. rewrite on_event_final. destruct ev; try done.
  destruct H as (s & h & Hget & Hact & <- & _). by apply armed_scheduleCleanup.
Qed.

Lemma armed_handlePrompt be k prompt t st :
  armed_at k t st -> armed_at k t (final (handlePrompt be k prompt st)).
Proof.
  intros Harm. pose proof Harm as (s & h & Hget & Hact & Hla & Ht & Htm).
  unfold handlePrompt. rewrite Hget, Hact. simpl.
  destruct (assistants_retrieve be); simpl; [|done].
  set (bound := if negb (truthy (threadId s)) then _ else _).
  assert (Hb : ∀ s1, bound = Some s1 -> armed_at k t (put k s1 st)).
  { intros s1. subst bound.
    destruct (negb (truthy (threadId s))).
    - destruct (threads_create be); [|discriminate].
      intros [= <-]. by apply armed_put_threadId.
    - intros [= <-]. exists s, h. rewrite getSession_put.
      by rewrite decide_True. }
  destruct bound as [s1|]; [|done].
  specialize (Hb s1 eq_refl).
  destruct (messages_create be); simpl; [|done].
  destruct (runs_stream be) as [events|]; [|done].
  unfold consume_stream. by apply armed_fold_on_event.
Qed.

Lemma now_handlePrompt be k prompt st :
  now (final (handlePrompt be k prompt st)) = now st.
Proof.
  unfold handlePrompt.
  destruct (getSession st k) as [session|]; [|done].
  destruct (is_active (status session)); simpl; [|done].
  destruct (assistants_retrieve be); simpl; [|done].
  destruct (if negb (truthy (threadId session)) then _ else _) as [s1|];
    [|done].
  destruct (messages_create be); simpl; [|done].
  destruct (runs_stream be) as [events|]; [|done].
  unfold consume_stream.
  transitivity (now (final (turn_run (mkTurn "" (mkRun [] [] (put k s1 st))))));
    [|done].
  generalize (mkTurn "" (mkRun [] [] (put k s1 st))).
  induction events as [|ev events IH]; intros t; [done|].
  simpl. rewrite IH, on_event_final. destruct ev; try done.
  apply now_scheduleCleanup.
Qed.

(** When the suggestion generator was not called, no [end] event was
    handled, and the state is the one the stream consumer started from. *)
Lemma fold_no_calls be k prompt events t :
  generate_calls (turn_run (fold_left (on_event be k prompt) events t)) = [] ->
  final (turn_run (fold_left (on_event be k prompt) events t))
    = final (turn_run t) ∧
  generate_calls (turn_run t) = [].
Proof.
  revert t. induction events as [|ev events IH]; intros t H; [done|].
  simpl in H. destruct (IH _ H) as [Hfin Hcalls]. simpl. rewrite Hfin.
  rewrite on_event_final.
  destruct ev; simpl in Hcalls; try done.
  destruct (generate _ _ _); simpl in Hcalls;
    by apply app_eq_nil in Hcalls as [_ ?].
Qed.

(** Without a call to the generator, [handlePrompt] leaves the timers and
    the handle of the session as they were. *)
Lemma handlePrompt_no_calls be k prompt st :
  generate_calls (handlePrompt be k prompt st) = [] ->
  timers (final (handlePrompt be k prompt st)) = timers st ∧
  timeoutId <$> getSession (final (handlePrompt be k prompt st)) k
    = timeoutId <$> getSession st k.
Proof.
  unfold handlePrompt.
  destruct (getSession st k) as [session|] eqn:Hget; [|intros _; simpl; by rewrite ?Hget].
  destruct (is_active (status session)); simpl; [|intros _; simpl; by rewrite ?Hget].
  destruct (assistants_retrieve be); simpl; [|intros _; simpl; by rewrite ?Hget].
  set (bound := if negb (truthy (threadId session)) then _ else _).
  assert (Hb : ∀ s1, bound = Some s1 -> timeoutId s1 = timeoutId session).
  { intros s1. subst bound. destruct (negb (truthy (threadId session))).
    - destruct (threads_create be); [|discriminate]. by intros [= <-].
    - by intros [= <-]. }
  destruct bound as [s1|]; [|intros _; simpl; by rewrite ?Hget].
  specialize (Hb s1 eq_refl).
  assert (Hp : timeoutId <$> getSession (put k s1 st) k = Some (timeoutId session))
    by (rewrite getSession_put, decide_True by done; simpl; by rewrite Hb).
  destruct (messages_create be); simpl; [|by intros _].
  destruct (runs_stream be) as [events|]; [|by intros _].
  unfold consume_stream. intros Hcalls.
  apply fold_no_calls in Hcalls as [-> _]. done.
Qed.

(** X13: a prompt on an active session keeps the session alive whatever the
    remote services do. After [send_prompt] the session is active, its
    [lastActive] is the time of the prompt, and its handle is a pending timer
    of that session due no earlier than 30 minutes after the prompt, also
    when the assistant, the thread, the message or the stream failed. When
    the end handler did not run (the suggestion generator was not called),
    that timer is the one [refreshSession] armed when the prompt arrived, due
    exactly 30 minutes after it. *)
Theorem send_prompt_keeps_alive be prompt id st :
  id ≠ "" -> hasSession st id = true ->
  let r := send_prompt be prompt (Some id) st in
  ∃ s h tm,
    getSession (final r) id = Some s ∧
    status s = active ∧ lastActive s = now st ∧ timeoutId s = Some h ∧
    timers (final r) !! h = Some tm ∧ timer_arg tm = id ∧
    (now st + 30 * 60 * 1000 ≤ timer_due tm)%Z ∧
    (generate_calls r = [] ->
       h = next_handle st ∧ timer_due tm = (now st + 30 * 60 * 1000)%Z).
Proof.
  intros Hne Hhas. simpl. unfold send_prompt. simpl.
  destruct (String.eqb_spec id ""); [done|]. simpl. rewrite Hhas. simpl.
  apply hasSession_spec in Hhas as (s0 & Hget & Hact).
  assert (Hst1 : armed_at id (now st) (snd (refreshSession id st)) ∧
                 now (snd (refreshSession id st)) = now st ∧
                 timeoutId <$> getSession (snd (refreshSession id st)) id
                   = Some (Some (next_handle st))).
  { unfold refreshSession. rewrite Hget, Hact. simpl.
    set (st2 := match timeoutId s0 with Some h0 => _ | None => _ end).
    assert (∃ s2, getSession st2 id = Some s2 ∧ status s2 = active ∧
                  lastActive s2 = now st ∧ now st2 = now st ∧
                  next_handle st2 = next_handle st)
      as (s2 & Hget2 & Hact2 & Hla2 & Hnow2 & Hn2).
    { subst st2. destruct (timeoutId s0); eexists; rewrite getSession_put;
        (split; [by rewrite decide_True|done]). }
    split; [|split].
    - rewrite <- Hla2. by apply armed_scheduleCleanup.
    - by rewrite now_scheduleCleanup.
    - rewrite (getSession_scheduleCleanup_active id st2 s2) by done.
      simpl. by rewrite Hn2. }
  destruct Hst1 as (Harm & Hnow & Hh1).
  destruct (refreshSession_active id st) as [s1 Hs1];
    [apply hasSession_spec; eauto|].
  destruct (refreshSession id st) as [o st1]. simpl in *. subst o.
  pose proof (armed_handlePrompt be id prompt _ _ Harm)
    as (s & h & Hg & Ha & Hl & Ht & Htm).
  rewrite now_handlePrompt, Hnow in Htm.
  exists s, h, (mkTimer id (now st + SESSION_TIMEOUT)).
  split; [exact Hg|]. split; [exact Ha|]. split; [exact Hl|].
  split; [exact Ht|]. split; [exact Htm|]. split; [done|].
  split; [unfold SESSION_TIMEOUT; simpl; lia|].
  intros Hcalls. split; [|done].
  apply handlePrompt_no_calls in Hcalls as [_ Hkeep].
  rewrite Hg, Hh1 in Hkeep. simpl in Hkeep. congruence.
Qed.

Lemma send_prompt_keeps_alive_witness :
  (let r := send_prompt be_ok "hello" (Some "s1") st_created in
   ∃ s, getSession (final r) "s1" = Some s ∧ status s = active ∧
        lastActive s = 0%Z ∧ timeoutId s = Some 1 ∧
        generate_calls r = [("hello", "Hi")]) ∧
  (let r := send_prompt
              (mkBackend false None false None CompletionRejects (fun _ => DelOk))
              "hello" (Some "s1") st_created in
   ∃ s, getSession (final r) "s1" = Some s ∧ status s = active ∧
        timeoutId s = Some 0 ∧
        timers (final r) !! 0 = Some (mkTimer "s1" 1800000)).
Proof.
  split; simpl.
  - destruct (send_prompt_keeps_alive be_ok "hello" "s1" st_created
                ltac:(discriminate) eq_refl)
      as (s & h & tm & Hg & Ha & Hl & Ht & _).
    exists s. split; [exact Hg|]. split; [exact Ha|]. split; [exact Hl|].
    split; [|reflexivity].
    vm_compute in Hg. injection Hg as <-. reflexivity.
  - destruct (send_prompt_keeps_alive
                (mkBackend false None false None CompletionRejects
                   (fun _ => DelOk)) "hello" "s1" st_created
                ltac:(discriminate) eq_refl)
      as (s & h & tm & Hg & Ha & _ & Ht & Htm & Harg & _ & Hexact).
    destruct (Hexact eq_refl) as [-> Hdue].
    exists s. split; [exact Hg|]. split; [exact Ha|]. split; [exact Ht|].
    destruct tm as [a d]. simpl in Harg, Hdue. subst a d. exact Htm.
Defined.

(** X14: a turn that fails before the stream starts (the session is not
    active, the assistant cannot be retrieved, a thread is needed and cannot
    be created, the message cannot be added, or the stream cannot be
    started) sends exactly one error event, does not call the suggestion
    generator and touches no timer. *)
Theorem handlePrompt_failure_before_stream be k prompt st :
  hasSession st k = false ∨ assistants_retrieve be = false ∨
  (∃ s, getSession st k = Some s ∧ truthy (threadId s) = false ∧
        threads_create be = None) ∨
  messages_create be = false ∨ runs_stream be = None ->
  let r := handlePrompt be k prompt st in
  (∃ m, emitted r = [error m]) ∧ generate_calls r = [] ∧
  timers (final r) = timers st.
Proof.
  intros Hfail. simpl. unfold handlePrompt.
  destruct (getSession st k) as [session|] eqn:Hget; [|by eauto].
  destruct (is_active (status session)) eqn:Hact; simpl; [|by eauto].
  destruct (assistants_retrieve be) eqn:Hret; simpl; [|by eauto].
  destruct (truthy (threadId session)) eqn:Htr; simpl.
  - destruct (messages_create be) eqn:Hmsg; simpl; [|by eauto].
    destruct (runs_stream be) as [events|] eqn:Hstr; [|by eauto].
    exfalso. destruct Hfail as [H|[H|[H|[H|H]]]]; try discriminate.
    + assert (hasSession st k = true); [|congruence].
      apply hasSession_spec. exists session. split; [done|].
      by destruct (status session).
    + destruct H as (s & Hs & Hf & _). congruence.
  - destruct (threads_create be) as [id|] eqn:Hthr; [|by eauto].
    destruct (messages_create be) eqn:Hmsg; simpl; [|by eauto].
    destruct (runs_stream be) as [events|] eqn:Hstr; [|by eauto].
    exfalso. destruct Hfail as [H|[H|[H|[H|H]]]]; try discriminate.
    + assert (hasSession st k = true); [|congruence].
      apply hasSession_spec. exists session. split; [done|].
      by destruct (status session).
    + destruct H as (s & Hs & _ & Hn). congruence.
Qed.

Lemma handlePrompt_failure_before_stream_witness :
  let be := mkBackend true None true None CompletionRejects (fun _ => DelOk) in
  emitted (handlePrompt be "s1" "hello" st_created)
    = [error "Could not create conversation thread"] ∧
  generate_calls (handlePrompt be "s1" "hello" st_created) = [].
Proof.
  simpl.
  destruct (handlePrompt_failure_before_stream
    (mkBackend true None true None CompletionRejects (fun _ => DelOk))
    "s1" "hello" st_created) as (_ & Hcalls & _).
  - right. right. left. eexists. split; [reflexivity|]. split; reflexivity.
  - split; [reflexivity|exact Hcalls].
Defined.

(** X15: a turn never ends a session and never starts one. Whatever the
    remote services answer and whatever the stream delivers, after
    [handlePrompt] every id has the same status and the same [lastActive] as
    before (so a failed turn leaves the session usable), and the events it
    sends are turn events only. *)
Theorem handlePrompt_keeps_sessions be k prompt st :
  let r := handlePrompt be k prompt st in
  (∀ k', status <$> getSession (final r) k' = status <$> getSession st k') ∧
  (∀ k', lastActive <$> getSession (final r) k'
         = lastActive <$> getSession st k') ∧
  (∀ e, In e (emitted r) -> turn_event e).
Proof.
  simpl. split; [|split].
  - intros k'. by apply proj_handlePrompt.
  - intros k'. by apply proj_handlePrompt.
  - intros e H. by apply handlePrompt_emitted in H as [H _].
Qed.

Lemma threadId_fold_on_event be k prompt events t k' :
  threadId <$> getSession
     (final (turn_run (fold_left (on_event be k prompt) events t))) k'
  = threadId <$> getSession (final (turn_run t)) k'.
Proof. by apply proj_fold_on_event. Qed.

(** X16: the thread of a session is bound once. A session that has a thread
    keeps it through [handlePrompt], whatever [threads.create] would answer;
    an active session without one gets the id that [threads.create]
    returned, and keeps it even if adding the message or starting the stream
    fails afterwards. *)
Theorem handlePrompt_thread_binding be k prompt st s :
  getSession st k = Some s ->
  let r := handlePrompt be k prompt st in
  (truthy (threadId s) = true ->
     threadId <$> getSession (final r) k = Some (threadId s)) ∧
  (∀ id, truthy (threadId s) = false -> status s = active ->
     assistants_retrieve be = true -> threads_create be = Some id ->
     threadId <$> getSession (final r) k = Some (Some id)).
Proof.
  intros Hget. simpl. unfold handlePrompt. rewrite Hget. split.
  - intros Htr. destruct (is_active (status s)); simpl; [|by rewrite Hget].
    destruct (assistants_retrieve be); simpl; [|by rewrite Hget].
    rewrite Htr. simpl.
    assert (Hp : threadId <$> getSession (put k s st) k = Some (threadId s))
      by (by rewrite getSession_put, decide_True).
    destruct (messages_create be); simpl; [|done].
    destruct (runs_stream be) as [events|]; [|done].
    unfold consume_stream. by rewrite threadId_fold_on_event.
  - intros id Htr Hact Hret Hthr. rewrite Hact, Hret, Htr, Hthr. simpl.
    assert (Hp : threadId <$> getSession
                   (put k (with_threadId (Some id) s) st) k = Some (Some id))
      by (by rewrite getSession_put, decide_True).
    destruct (messages_create be); simpl; [|done].
    destruct (runs_stream be) as [events|]; [|done].
    unfold consume_stream. by rewrite threadId_fold_on_event.
Qed.

Lemma handlePrompt_thread_binding_witness :
  let be := mkBackend true (Some "thread_2") false None CompletionRejects
              (fun _ => DelOk) in
  threadId <$> getSession (final (handlePrompt be "s1" "again" st_bound)) "s1"
    = Some (Some "thread_1") ∧
  threadId <$> getSession (final (handlePrompt be "s1" "hello" st_created)) "s1"
    = Some (Some "thread_2").
Proof.
  simpl. split.
  - destruct (handlePrompt_thread_binding
      (mkBackend true (Some "thread_2") false None CompletionRejects
         (fun _ => DelOk)) "s1" "again" st_bound
      (mkSession (Some "thread_1") 0 (Some 0) active) eq_refl) as [H _].
    exact (H eq_refl).
  - destruct (handlePrompt_thread_binding
      (mkBackend true (Some "thread_2") false None CompletionRejects
         (fun _ => DelOk)) "s1" "hello" st_created
      (mkSession None 0 None active) eq_refl) as [_ H].
    exact (H "thread_2" eq_refl eq_refl eq_refl eq_refl).
Defined.

Lemma fold_on_event_counts be k prompt events t :
  let t' := fold_left (on_event be k prompt) events t in
  List.filter is_text (emitted (turn_run t')) =
    List.filter is_text (emitted (turn_run t)) ++ flat_map forward_text events ∧
  fullResponse t' = (fullResponse t ++ reply_text events)%string ∧
  length (List.filter is_error (emitted (turn_run t'))) =
    length (List.filter is_error (emitted (turn_run t)))
    + length (List.filter is_error_event events) ∧
  length (generate_calls (turn_run t')) =
    length (generate_calls (turn_run t)) + length (List.filter is_end events).
Proof.
  simpl. revert t. induction events as [|ev events IH]; intros t.
  - simpl. rewrite app_nil_r, string_app_empty_r. repeat split; lia.
  - simpl. destruct (IH (on_event be k prompt t ev)) as (H1 & H2 & H3 & H4).
    rewrite H1, H2, H3, H4. clear.
    destruct ev; simpl; rewrite ?List.filter_app; simpl;
      rewrite ?app_nil_r, ?length_app; simpl.
    + rewrite <- app_assoc. repeat split; lia.
    + rewrite <- app_assoc, string_app_assoc. repeat split; lia.
    + repeat split; lia.
    + destruct (generate _ _ _) as [x|v]; simpl;
        rewrite ?List.filter_app; simpl; rewrite ?app_nil_r, ?length_app;
        simpl; rewrite ?List.filter_app; simpl; rewrite ?app_nil_r;
        repeat split; lia.
Qed.

(** X17: fan-out of a turn that reaches the stream, for any sequence of
    stream events. The text events are forwarded to the client all and in
    the order of the stream; one error event is sent per stream error; the
    suggestion generator is called once per [end] event. *)
Theorem handlePrompt_fan_out be k prompt st session events :
  getSession st k = Some session -> status session = active ->
  assistants_retrieve be = true ->
  truthy (threadId session) = true ∨ is_Some (threads_create be) ->
  messages_create be = true ->
  runs_stream be = Some events ->
  let r := handlePrompt be k prompt st in
  List.filter is_text (emitted r) = flat_map forward_text events ∧
  length (List.filter is_error (emitted r))
    = length (List.filter is_error_event events) ∧
  length (generate_calls r) = length (List.filter is_end events).
Proof.
  intros Hget Hact Hret Hthr Hmsg Hstream. simpl.
  destruct (handlePrompt_streams be k prompt st session _
              Hget Hact Hret Hthr Hmsg Hstream) as (s1 & _ & _ & ->).
  unfold consume_stream.
  destruct (fold_on_event_counts be k prompt events
              (mkTurn "" (mkRun [] [] (put k s1 st)))) as (H1 & _ & H3 & H4).
  split; [exact H1|]. split; [exact H3|exact H4].
Qed.

Lemma handlePrompt_fan_out_witness :
  let be := with_stream
      [EvTextDelta "a" "a"; EvTextCreated "x"; EvTextDelta "b" "ab"; EvError]
      be_ok in
  List.filter is_text (emitted (handlePrompt be "s1" "hello" st_created))
    = [textDelta "a" "a"; textCreated "x"; textDelta "b" "ab"] ∧
  length (generate_calls (handlePrompt be "s1" "hello" st_created)) = 0.
Proof.
  simpl.
  destruct (handlePrompt_fan_out
    (with_stream
       [EvTextDelta "a" "a"; EvTextCreated "x"; EvTextDelta "b" "ab"; EvError]
       be_ok)
    "s1" "hello" st_created (mkSession None 0 None active) _
    eq_refl eq_refl eq_refl (or_intror (ex_intro _ "thread_1" eq_refl))
    eq_refl eq_refl) as (Htext & _ & Hcalls).
  split; [exact Htext|exact Hcalls].
Defined.

Lemma fold_on_event_completions be k prompt events t :
  let t' := fold_left (on_event be k prompt) events t in
  length (List.filter is_complete (emitted (turn_run t'))) =
    length (List.filter is_complete (emitted (turn_run t)))
    + length (List.filter is_end events) ∧
  length (List.filter is_suggestions (emitted (turn_run t'))) =
    length (List.filter is_suggestions (emitted (turn_run t)))
    + length (List.filter is_end events).
Proof.
  simpl. revert t. induction events as [|ev events IH]; intros t.
  - simpl. split; lia.
  - simpl. destruct (IH (on_event be k prompt t ev)) as (H1 & H2).
    rewrite H1, H2. clear.
    destruct ev; simpl; rewrite ?List.filter_app; simpl;
      rewrite ?app_nil_r, ?length_app; simpl; try (split; lia).
    unfold generate. destruct (generate_try _) as [x|v]; simpl;
      rewrite ?List.filter_app; simpl; rewrite ?app_nil_r, ?length_app;
      simpl; rewrite ?List.filter_app; simpl;
      rewrite ?app_nil_r, ?length_app; simpl; split; lia.
Qed.

Lemma fold_no_end be k prompt events t :
  List.filter is_end events = [] ->
  final (turn_run (fold_left (on_event be k prompt) events t))
    = final (turn_run t).
Proof.
  revert t. induction events as [|ev events IH]; intros t H; [done|].
  simpl. destruct ev; simpl in H; try discriminate;
    rewrite IH by done; by rewrite on_event_final.
Qed.

Lemma filter_length_0 {A} (p : A -> bool) (l : list A) x :
  length (List.filter p l) = 0 -> In x l -> p x = false.
Proof.
  intros Hlen Hin. destruct (p x) eqn:E; [|done].
  assert (In x (List.filter p l)) as Hf by (by apply filter_In).
  destruct (List.filter p l); [done|discriminate].
Qed.

(** C4, as stated, fails: the turn does not stop at the error. On the
    stream "delta, error, end" the coordinator forwards the error and then,
    at the end event, still emits the completion signal, calls the
    suggestion generator, sends the suggestions and re-arms the timer. *)
Lemma error_then_end_not_stopped :
  let be := with_stream [EvTextDelta "Hi" "Hi"; EvError; EvEnd] be_ok in
  let r := handlePrompt be "s1" "hello" st_created in
  runs_stream be = Some [EvTextDelta "Hi" "Hi"; EvError; EvEnd] ∧
  emitted r =
    [textDelta "Hi" "Hi"; error "Error during response streaming";
     responseComplete; suggestions (JArr [JStr "a"; JStr "b"; JStr "c"])] ∧
  generate_calls r = [("hello", "Hi")] ∧
  timers (final r) !! 0 = Some (mkTimer "s1" 1800000) ∧
  ¬ (¬ In responseComplete (emitted r) ∧
     (∀ v, ¬ In (suggestions v) (emitted r)) ∧ generate_calls r = []).
Proof.
  simpl. split; [reflexivity|]. split; [reflexivity|].
  split; [reflexivity|]. split; [reflexivity|].
  intros (_ & _ & Hcalls). vm_compute in Hcalls. discriminate Hcalls.
Qed.

(** C4, amended: in a turn that reaches the stream and whose stream
    produces an error event, each error event is forwarded as exactly one
    error signal with the streaming message, and the session is still active
    afterwards. The coordinator does not stop at the error: it keeps no
    record of it, and sends one completion signal and one suggestions event,
    with one call to the suggestion generator, for every end event the
    stream delivers, before or after the error. When the stream delivers no
    end event, there is no completion signal, no suggestions event, no call
    to the generator and no timer is re-armed. *)
Theorem stream_error_forwarded be k prompt st session events :
  getSession st k = Some session -> status session = active ->
  assistants_retrieve be = true ->
  truthy (threadId session) = true ∨ is_Some (threads_create be) ->
  messages_create be = true ->
  runs_stream be = Some events ->
  In EvError events ->
  let r := handlePrompt be k prompt st in
  length (List.filter is_error (emitted r))
    = length (List.filter is_error_event events) ∧
  0 < length (List.filter is_error (emitted r)) ∧
  (∀ m, In (error m) (emitted r) -> m = "Error during response streaming") ∧
  hasSession (final r) k = true ∧
  length (List.filter is_complete (emitted r))
    = length (List.filter is_end events) ∧
  length (List.filter is_suggestions (emitted r))
    = length (List.filter is_end events) ∧
  length (generate_calls r) = length (List.filter is_end events) ∧
  (List.filter is_end events = [] ->
     ¬ In responseComplete (emitted r) ∧
     (∀ v, ¬ In (suggestions v) (emitted r)) ∧
     generate_calls r = [] ∧ timers (final r) = timers st).
Proof.
  intros Hget Hact Hret Hthr Hmsg Hstream Herr. simpl.
  assert (Hhas : hasSession (final (handlePrompt be k prompt st)) k = true).
  { rewrite (hasSession_of_status st _ k) by (by apply proj_handlePrompt).
    apply hasSession_spec. eauto. }
  destruct (handlePrompt_streams be k prompt st session _
              Hget Hact Hret Hthr Hmsg Hstream) as (s1 & _ & _ & Heq).
  rewrite Heq in *. unfold consume_stream in *.
  set (t0 := mkTurn "" (mkRun [] [] (put k s1 st))) in *.
  destruct (fold_on_event_counts be k prompt events t0) as (_ & _ & H3 & H4).
  destruct (fold_on_event_completions be k prompt events t0) as (H5 & H6).
  simpl in H3, H4, H5, H6.
  split; [exact H3|]. split; [|split; [|split; [exact Hhas|]]].
  - rewrite H3.
    assert (In EvError (List.filter is_error_event events))
      by (by apply filter_In).
    destruct (List.filter is_error_event events); [done|simpl; lia].
  - intros m Hm. apply emitted_fold_on_event in Hm as [[]|[_ Hm]]. by apply Hm.
  - split; [exact H5|]. split; [exact H6|]. split; [exact H4|].
    intros Hno. rewrite Hno in H4, H5, H6. simpl in H4, H5, H6.
    split; [|split; [|split]].
    + intros Hin. by apply (filter_length_0 is_complete _ _ H5) in Hin.
    + intros v Hin. by apply (filter_length_0 is_suggestions _ _ H6) in Hin.
    + by destruct (generate_calls _).
    + by rewrite fold_no_end.
Qed.

Lemma stream_error_forwarded_witness :
  (let r := handlePrompt
              (with_stream [EvTextDelta "Hi" "Hi"; EvError] be_ok)
              "s1" "hello" st_created in
   length (List.filter is_error (emitted r)) = 1 ∧
   ¬ In responseComplete (emitted r) ∧ generate_calls r = [] ∧
   hasSession (final r) "s1" = true) ∧
  (let r := handlePrompt
              (with_stream [EvTextDelta "Hi" "Hi"; EvError; EvEnd] be_ok)
              "s1" "hello" st_created in
   length (List.filter is_error (emitted r)) = 1 ∧
   length (List.filter is_complete (emitted r)) = 1 ∧
   length (generate_calls r) = 1 ∧
   hasSession (final r) "s1" = true).
Proof.
  split; simpl.
  - destruct (stream_error_forwarded
      (with_stream [EvTextDelta "Hi" "Hi"; EvError] be_ok)
      "s1" "hello" st_created (mkSession None 0 None active) _
      eq_refl eq_refl eq_refl (or_intror (ex_intro _ "thread_1" eq_refl))
      eq_refl eq_refl (or_intror (or_introl eq_refl)))
      as (Herr & _ & _ & Hact & _ & _ & _ & Hnoend).
    destruct (Hnoend eq_refl) as (Hnc & _ & Hcalls & _).
    split; [exact Herr|]. split; [exact Hnc|]. split; [exact Hcalls|exact Hact].
  - destruct (stream_error_forwarded
      (with_stream [EvTextDelta "Hi" "Hi"; EvError; EvEnd] be_ok)
      "s1" "hello" st_created (mkSession None 0 None active) _
      eq_refl eq_refl eq_refl (or_intror (ex_intro _ "thread_1" eq_refl))
      eq_refl eq_refl (or_intror (or_introl eq_refl)))
      as (Herr & _ & _ & Hact & Hc & _ & Hcalls & _).
    split; [exact Herr|]. split; [exact Hc|]. split; [exact Hcalls|exact Hact].
Defined.

(** X18: two cleanups in a row of a session whose thread is deleted
    remotely: the first removes the record and broadcasts [clear_chat] once,
    the second finds no session and does nothing. *)
Theorem cleanupSession_twice be be' st k s tid :
  getSession st k = Some s -> threadId s = Some tid -> tid ≠ "" ->
  threads_del be tid = DelOk ->
  let r1 := cleanupSession be k st in
  let r2 := cleanupSession be' k (final r1) in
  emitted r1 ++ emitted r2 = [clear_chat k] ∧ final r2 = final r1 ∧
  getSession (final r2) k = None.
Proof.
  intros Hget Htid Hne Hdel. simpl.
  rewrite (cleanupSession_bound be st k s tid Hget Htid Hne), Hdel. simpl.
  unfold cleanupSession at 1 2 3.
  rewrite getSession_deleteSession. simpl.
  split; [done|]. split; [done|]. apply getSession_deleteSession.
Qed.

Lemma cleanupSession_twice_witness :
  emitted (cleanupSession be_ok "s1" st_bound) ++
  emitted (cleanupSession be_ok "s1" (final (cleanupSession be_ok "s1" st_bound)))
    = [clear_chat "s1"].
Proof.
  destruct (cleanupSession_twice be_ok be_ok st_bound "s1"
              (mkSession (Some "thread_1") 0 (Some 0) active) "thread_1"
              eq_refl eq_refl ltac:(discriminate) eq_refl) as [H _].
  exact H.
Defined.

(** X19: a cleanup that failed remotely is retried by the next one. After a
    deletion that rejected with something other than 404, a second cleanup
    of the same session calls the remote deletion again; when that one
    succeeds it broadcasts [clear_chat] and removes the record. *)
Theorem cleanupSession_retry be be' st k s tid e :
  getSession st k = Some s -> threadId s = Some tid -> tid ≠ "" ->
  threads_del be tid = DelError e -> e ≠ Some 404%Z ->
  threads_del be' tid = DelOk ->
  let r1 := cleanupSession be k st in
  let r2 := cleanupSession be' k (final r1) in
  emitted r1 = [] ∧ emitted r2 = [clear_chat k] ∧
  getSession (final r2) k = None.
Proof.
  intros Hget Htid Hne Hdel He Hdel'. simpl.
  rewrite (cleanupSession_bound be st k s tid Hget Htid Hne), Hdel. simpl.
  rewrite bool_decide_eq_false_2 by done. simpl. split; [done|].
  rewrite (cleanupSession_bound be' _ k (with_status pending_deletion s) tid);
    [|by rewrite getSession_put, decide_True|done|done].
  rewrite Hdel'. simpl. split; [done|apply getSession_deleteSession].
Qed.

Lemma cleanupSession_retry_witness :
  let r1 := cleanupSession (with_del (DelError (Some 500%Z)) be_ok) "s1" st_bound in
  let r2 := cleanupSession be_ok "s1" (final r1) in
  emitted r1 = [] ∧ emitted r2 = [clear_chat "s1"] ∧
  getSession (final r2) "s1" = None.
Proof.
  apply (cleanupSession_retry (with_del (DelError (Some 500%Z)) be_ok) be_ok
           st_bound "s1" (mkSession (Some "thread_1") 0 (Some 0) active)
           "thread_1" (Some 500%Z));
    try reflexivity; discriminate.
Defined.

Lemma cleanupExpiredSessions_sweep_from be st :
  cleanupExpiredSessions be st
  = sweep_from be (getExpiredSessions st) (mkRun [] [] st).
Proof. reflexivity. Qed.

Lemma sweep_from_cons be k ids r :
  sweep_from be (k :: ids) r =
  sweep_from be ids
    (mkRun (emitted r ++ emitted (cleanupSession be k (final r)))
           (generate_calls r ++ generate_calls (cleanupSession be k (final r)))
           (final (cleanupSession be k (final r)))).
Proof. reflexivity. Qed.

Lemma cleanupSession_emitted be k st :
  (emitted (cleanupSession be k st) = [] ∨
   emitted (cleanupSession be k st) = [clear_chat k]) ∧
  generate_calls (cleanupSession be k st) = [].
Proof.
  unfold cleanupSession.
  destruct (getSession st k) as [session|]; [|by auto].
  destruct (markSessionForDeletion k st) as [marked st1].
  destruct marked; simpl; [|by auto].
  destruct (truthy (threadId session)); [|by auto].
  destruct (threads_del be _) as [|e]; [by auto|].
  case_bool_decide; by auto.
Qed.

Lemma now_cleanupSession be k st : now (final (cleanupSession be k st)) = now st.
Proof.
  assert (Hm : now (snd (markSessionForDeletion k st)) = now st).
  { unfold markSessionForDeletion. by destruct (getSession st k). }
  destruct (cleanupSession_final be k st) as [->|[->| ->]]; [done|done|].
  rewrite <- Hm. unfold deleteSession. simpl.
  destruct (getSession _ k) as [s|]; [|done]. by destruct (timeoutId s).
Qed.

Lemma getSession_cleanupSession_None be k st k' :
  getSession st k' = None ->
  getSession (final (cleanupSession be k st)) k' = None.
Proof.
  intros Hn. destruct (decide (k' = k)) as [->|Hne].
  - destruct (getSession_cleanupSession_self be k st) as [->| ->]; [done|].
    by rewrite Hn.
  - by rewrite getSession_cleanupSession_other.
Qed.

Lemma sweep_from_other be ids r k :
  ¬ In k ids ->
  getSession (final (sweep_from be ids r)) k = getSession (final r) k.
Proof.
  revert r. induction ids as [|k0 ids IH]; intros r Hni; [done|].
  simpl in Hni. rewrite sweep_from_cons.
  rewrite IH by tauto. simpl.
  apply getSession_cleanupSession_other. intros ->. tauto.
Qed.

Lemma sweep_from_now be ids r :
  now (final (sweep_from be ids r)) = now (final r).
Proof.
  revert r. induction ids as [|k0 ids IH]; intros r; [done|].
  rewrite sweep_from_cons.
  rewrite IH. simpl. apply now_cleanupSession.
Qed.

Lemma sweep_from_inactive be ids r k :
  hasSession (final r) k = false ∨ In k ids ->
  hasSession (final (sweep_from be ids r)) k = false.
Proof.
  revert r. induction ids as [|k0 ids IH]; intros r H.
  - by destruct H as [H|[]].
  - rewrite sweep_from_cons. apply IH. simpl.
    destruct (decide (k = k0)) as [->|Hne].
    + left. apply hasSession_cleanupSession_self.
    + destruct H as [H|[H|H]]; [left|congruence|by right].
      rewrite <- H. apply hasSession_of_status.
      by rewrite getSession_cleanupSession_other.
Qed.

Lemma sweep_from_emitted be ids r :
  (∀ e, In e (emitted (sweep_from be ids r)) ->
     In e (emitted r) ∨ ∃ k, e = clear_chat k ∧ In k ids) ∧
  generate_calls (sweep_from be ids r) = generate_calls r.
Proof.
  revert r. induction ids as [|k0 ids IH]; intros r; [by auto|].
  rewrite sweep_from_cons.
  destruct (IH (mkRun (emitted r ++ emitted (cleanupSession be k0 (final r)))
                  (generate_calls r ++ generate_calls (cleanupSession be k0 (final r)))
                  (final (cleanupSession be k0 (final r))))) as [He Hc].
  destruct (cleanupSession_emitted be k0 (final r)) as [Hout Hcalls].
  split.
  - intros e H. apply He in H as [H|(k & -> & Hk)];
      [|right; exists k; split; [done|by right]].
    simpl in H. apply in_app_iff in H as [H|H]; [by left|right].
    destruct Hout as [Hout|Hout]; rewrite Hout in H; [done|].
    destruct H as [<-|[]]. exists k0. split; [done|by left].
  - rewrite Hc. simpl. by rewrite Hcalls, app_nil_r.
Qed.

(** X20: the periodic sweep. It leaves every session that is not expired
    exactly as it is, takes every expired session out of service, sends
    nothing but [clear_chat] events of expired sessions, and never calls the
    suggestion generator. *)
Theorem sweep_spares_unexpired be st :
  let r := cleanupExpiredSessions be st in
  (∀ k, ¬ In k (getExpiredSessions st) ->
     getSession (final r) k = getSession st k) ∧
  (∀ k, In k (getExpiredSessions st) -> hasSession (final r) k = false) ∧
  (∀ e, In e (emitted r) -> ∃ k, e = clear_chat k ∧ In k (getExpiredSessions st)) ∧
  generate_calls r = [].
Proof.
  simpl. rewrite cleanupExpiredSessions_sweep_from.
  split; [|split; [|split]].
  - intros k Hk. by rewrite sweep_from_other.
  - intros k Hk. apply sweep_from_inactive. by right.
  - intros e H. by apply sweep_from_emitted in H as [[]|H].
  - apply sweep_from_emitted.
Qed.

Lemma sweep_spares_unexpired_witness :
  let st := exec (OpCreate "s2") st_marked in
  let r := cleanupExpiredSessions be_ok st in
  getSession (final r) "s2" = getSession st "s2" ∧
  hasSession (final r) "s1" = false.
Proof.
  simpl.
  destruct (sweep_spares_unexpired be_ok (exec (OpCreate "s2") st_marked))
    as (Hkeep & Hout & _).
  split.
  - apply Hkeep. vm_compute. intros [H|[]]. discriminate.
  - apply Hout. vm_compute. by left.
Defined.

Lemma sweep_from_removed be ids r k :
  (∀ tid, threads_del be tid = DelOk ∨ threads_del be tid = DelError (Some 404%Z)) ->
  getSession (final r) k = None ∨ In k ids ->
  getSession (final (sweep_from be ids r)) k = None.
Proof.
  intros Hdel. revert r. induction ids as [|k0 ids IH]; intros r H.
  - by destruct H as [H|[]].
  - rewrite sweep_from_cons. apply IH. simpl.
    destruct H as [H|[H|H]]; [left|left|by right].
    + by apply getSession_cleanupSession_None.
    + subst k0. unfold cleanupSession.
      destruct (getSession (final r) k) as [s|] eqn:Hget; [|done].
      destruct (markSessionForDeletion k (final r)) as [marked st1] eqn:Hm.
      unfold markSessionForDeletion in Hm. rewrite Hget in Hm.
      injection Hm as <- <-. simpl.
      destruct (truthy (threadId s)); [|apply getSession_deleteSession].
      destruct (Hdel (default "" (threadId s))) as [-> | ->]; simpl;
        apply getSession_deleteSession.
Qed.

(** X21: the sweep converges when the remote deletions go through. From a
    reachable state, if every remote deletion resolves or rejects with 404,
    one sweep removes every expired session, and nothing is left for the
    next sweep. *)
Theorem sweep_converges be st :
  reachable st ->
  (∀ tid, threads_del be tid = DelOk ∨ threads_del be tid = DelError (Some 404%Z)) ->
  let st' := final (cleanupExpiredSessions be st) in
  (∀ k, In k (getExpiredSessions st) -> getSession st' k = None) ∧
  getExpiredSessions st' = [].
Proof.
  intros Hreach Hdel. simpl.
  assert (Hgone : ∀ k, In k (getExpiredSessions st) ->
            getSession (final (cleanupExpiredSessions be st)) k = None).
  { intros k Hk. rewrite cleanupExpiredSessions_sweep_from.
    apply sweep_from_removed; [done|by right]. }
  split; [exact Hgone|].
  assert (Hreach' : reachable (exec (OpSweep be) st))
    by (by apply reachable_step).
  simpl in Hreach'.
  destruct (getExpiredSessions (final (cleanupExpiredSessions be st)))
    as [|k l] eqn:E; [done|exfalso].
  assert (Hin : In k (getExpiredSessions (final (cleanupExpiredSessions be st))))
    by (rewrite E; by left).
  apply (getExpiredSessions_getSession _ k Hreach') in Hin as (s & Hs & Hexp).
  destruct (in_dec String.string_dec k (getExpiredSessions st)) as [Hk|Hk].
  - rewrite Hgone in Hs by done. discriminate.
  - rewrite cleanupExpiredSessions_sweep_from in Hs, Hexp.
    rewrite sweep_from_other in Hs by done.
    rewrite sweep_from_now in Hexp. simpl in Hs, Hexp.
    apply Hk. apply (getExpiredSessions_getSession st k Hreach). eauto.
Qed.

Lemma sweep_converges_witness :
  let st := exec (OpMark "s1") st_bound in
  getSession (final (cleanupExpiredSessions be_ok st)) "s1" = None ∧
  getExpiredSessions (final (cleanupExpiredSessions be_ok st)) = [].
Proof.
  simpl.
  assert (Hreach : reachable (exec (OpMark "s1") st_bound)).
  { apply reachable_step; [|exact I]. apply reachable_step; [|exact I].
    apply reachable_step; [apply reachable_init|reflexivity]. }
  destruct (sweep_converges be_ok _ Hreach (fun _ => or_introl eq_refl))
    as [Hgone Hnone].
  split; [|exact Hnone]. apply Hgone. vm_compute. by left.
Defined.

Lemma sweep_from_None be ids r k :
  getSession (final r) k = None ->
  getSession (final (sweep_from be ids r)) k = None.
Proof.
  revert r. induction ids as [|k0 ids IH]; intros r H; [done|].
  rewrite sweep_from_cons. apply IH. simpl.
  by apply getSession_cleanupSession_None.
Qed.

Lemma sweep_from_emitted_mono be ids r e :
  In e (emitted r) -> In e (emitted (sweep_from be ids r)).
Proof.
  revert r. induction ids as [|k0 ids IH]; intros r H; [done|].
  rewrite sweep_from_cons. apply IH. simpl. apply in_app_iff. by left.
Qed.

(** A sweep over a list that names a session bound to a thread whose remote
    deletion now resolves: the record is removed and [clear_chat] is sent. *)
Lemma sweep_from_retry_resolves be ids r k s tid :
  threads_del be tid = DelOk ->
  getSession (final r) k = Some s -> threadId s = Some tid -> tid ≠ "" ->
  In k ids ->
  In (clear_chat k) (emitted (sweep_from be ids r)) ∧
  getSession (final (sweep_from be ids r)) k = None.
Proof.
  intros Hdel. revert r. induction ids as [|k0 ids IH];
    intros r Hget Htid Hne Hin; [done|].
  rewrite sweep_from_cons. destruct (decide (k0 = k)) as [->|Hk].
  - rewrite (cleanupSession_bound be (final r) k s tid Hget Htid Hne), Hdel.
    simpl. split.
    + apply sweep_from_emitted_mono. simpl. apply in_app_iff. right. by left.
    + apply sweep_from_None. simpl. apply getSession_deleteSession.
  - apply (IH _); [|done|done|].
    + simpl. by rewrite getSession_cleanupSession_other.
    + destruct Hin as [?|?]; [congruence|done].
Qed.

(** The same when the remote deletion now answers 404: the record is
    removed. *)
Lemma sweep_from_retry_not_found be ids r k s tid :
  threads_del be tid = DelError (Some 404%Z) ->
  getSession (final r) k = Some s -> threadId s = Some tid -> tid ≠ "" ->
  In k ids ->
  getSession (final (sweep_from be ids r)) k = None.
Proof.
  intros Hdel. revert r. induction ids as [|k0 ids IH];
    intros r Hget Htid Hne Hin; [done|].
  rewrite sweep_from_cons. destruct (decide (k0 = k)) as [->|Hk].
  - rewrite (cleanupSession_bound be (final r) k s tid Hget Htid Hne), Hdel.
    simpl. apply sweep_from_None. simpl. apply getSession_deleteSession.
  - apply (IH _); [|done|done|].
    + simpl. by rewrite getSession_cleanupSession_other.
    + destruct Hin as [?|?]; [congruence|done].
Qed.

(** And when it fails again with another error: the record stays, marked. *)
Lemma sweep_from_retry_fails be ids r k s tid e :
  threads_del be tid = DelError e -> e ≠ Some 404%Z ->
  getSession (final r) k = Some (with_status pending_deletion s) ->
  threadId s = Some tid -> tid ≠ "" ->
  getSession (final (sweep_from be ids r)) k
    = Some (with_status pending_deletion s).
Proof.
  intros Hdel He. revert r. induction ids as [|k0 ids IH];
    intros r Hget Htid Hne; [done|].
  rewrite sweep_from_cons. apply IH; [|done|done]. simpl.
  destruct (decide (k0 = k)) as [->|Hk].
  - rewrite (cleanupSession_bound be (final r) k _ tid Hget Htid Hne), Hdel.
    simpl. rewrite bool_decide_eq_false_2 by done. simpl.
    rewrite getSession_put, decide_True by done. done.
  - by rewrite getSession_cleanupSession_other.
Qed.

(** C8: cleanup of a session with a bound [threadId] whose remote deletion
    fails. Nothing is emitted, so no error event reaches a client. With
    status 404 the record is removed. With any other error the record stays
    in the registry with status [pending_deletion], it is returned by the
    next [getExpiredSessions], and the next sweep retries it: the sweep sends
    nothing but [clear_chat] events, and for this session it calls the remote
    deletion again; if that now resolves the record is removed and
    [clear_chat] is broadcast, if it answers 404 the record is removed, and
    if it fails otherwise the record is again left marked, for the sweep
    after. *)
Theorem cleanupSession_remote_failure be st k s tid e :
  getSession st k = Some s -> threadId s = Some tid -> tid ≠ "" ->
  threads_del be tid = DelError e ->
  let r := cleanupSession be k st in
  emitted r = [] ∧
  (e = Some 404%Z -> getSession (final r) k = None) ∧
  (e ≠ Some 404%Z ->
     getSession (final r) k = Some (with_status pending_deletion s) ∧
     In k (getExpiredSessions (final r)) ∧
     ∀ be',
       let r2 := cleanupExpiredSessions be' (final r) in
       (∀ ev, In ev (emitted r2) -> ∃ k', ev = clear_chat k') ∧
       match threads_del be' tid with
       | DelOk =>
           In (clear_chat k) (emitted r2) ∧ getSession (final r2) k = None
       | DelError e' =>
           if bool_decide (e' = Some 404%Z)
           then getSession (final r2) k = None
           else getSession (final r2) k = Some (with_status pending_deletion s) ∧
                In k (getExpiredSessions (final r2))
       end).
Proof.
  intros Hget Htid Hne Hdel. simpl.
  rewrite (cleanupSession_bound be st k s tid Hget Htid Hne), Hdel. simpl.
  case_bool_decide as He; simpl.
  - split; [done|]. split; [|done]. intros _. apply getSession_deleteSession.
  - split; [done|]. split; [done|]. intros _.
    set (st1 := put k (with_status pending_deletion s) st).
    assert (Hg : getSession st1 k = Some (with_status pending_deletion s))
      by (subst st1; rewrite getSession_put; by case_decide).
    assert (Hexp : ∀ st', getSession st' k = Some (with_status pending_deletion s) ->
              In k (getExpiredSessions st')).
    { intros st' Hg'. rewrite getExpiredSessions_filter. apply in_map_iff.
      exists (k, with_status pending_deletion s). split; [done|].
      apply filter_In. split; [by apply get_In|done]. }
    split; [exact Hg|]. split; [by apply Hexp|].
    intros be'. rewrite cleanupExpiredSessions_sweep_from. split.
    + intros ev Hev. apply sweep_from_emitted in Hev as [[]|(k' & -> & _)].
      eauto.
    + destruct (threads_del be' tid) as [|e'] eqn:Hdel'.
      * eapply sweep_from_retry_resolves; [done|exact Hg|done|done|].
        by apply Hexp.
      * case_bool_decide as He'.
        -- subst e'.
           eapply sweep_from_retry_not_found; [done|exact Hg|done|done|].
           by apply Hexp.
        -- assert (Hkeep : getSession
                     (final (sweep_from be' (getExpiredSessions st1)
                               (mkRun [] [] st1))) k
                     = Some (with_status pending_deletion s))
             by (by eapply sweep_from_retry_fails).
           split; [exact Hkeep|by apply Hexp].
Qed.

Lemma cleanupSession_remote_failure_witness :
  (let r := cleanupSession (with_del (DelError (Some 404%Z)) be_ok) "s1" st_bound in
   emitted r = [] ∧ getSession (final r) "s1" = None) ∧
  (let r := cleanupSession (with_del (DelError (Some 500%Z)) be_ok) "s1" st_bound in
   emitted r = [] ∧ In "s1" (getExpiredSessions (final r)) ∧
   (let r2 := cleanupExpiredSessions be_ok (final r) in
    In (clear_chat "s1") (emitted r2) ∧ getSession (final r2) "s1" = None) ∧
   (let r2 := cleanupExpiredSessions (with_del (DelError (Some 503%Z)) be_ok)
                (final r) in
    emitted r2 = [] ∧ In "s1" (getExpiredSessions (final r2)))).
Proof.
  assert (Hget : getSession st_bound "s1"
                 = Some (mkSession (Some "thread_1") 0 (Some 0) active))
    by reflexivity.
  split.
  - destruct (cleanupSession_remote_failure
                (with_del (DelError (Some 404%Z)) be_ok) st_bound "s1" _
                "thread_1" (Some 404%Z) Hget eq_refl ltac:(discriminate) eq_refl)
      as (Hout & Hgone & _).
    split; [exact Hout | exact (Hgone eq_refl)].
  - destruct (cleanupSession_remote_failure
                (with_del (DelError (Some 500%Z)) be_ok) st_bound "s1" _
                "thread_1" (Some 500%Z) Hget eq_refl ltac:(discriminate) eq_refl)
      as (Hout & _ & Hkept).
    destruct (Hkept ltac:(discriminate)) as (_ & Hin & Hsweep).
    split; [exact Hout|]. split; [exact Hin|]. split.
    + exact (proj2 (Hsweep be_ok)).
    + destruct (Hsweep (with_del (DelError (Some 503%Z)) be_ok)) as [_ Hagain].
      split; [reflexivity|exact (proj2 Hagain)].
Defined.

(** X22: a disconnect schedules the cleanup, it does not run it. After
    [disconnect] every session has the status, the thread and the
    [lastActive] it had; when the connection holds an active session, that
    session's handle is a timer due 30 minutes from now; when it holds none,
    nothing changes. *)
Theorem disconnect_schedules conn st :
  let st' := disconnect conn st in
  (∀ k, status <$> getSession st' k = status <$> getSession st k ∧
        threadId <$> getSession st' k = threadId <$> getSession st k ∧
        lastActive <$> getSession st' k = lastActive <$> getSession st k) ∧
  (∀ id s, conn = Some id -> id ≠ "" -> getSession st id = Some s ->
     status s = active ->
     ∃ h, timeoutId <$> getSession st' id = Some (Some h) ∧
          timers st' !! h = Some (mkTimer id (now st + 30 * 60 * 1000))) ∧
  (truthy conn = false ∨ hasSession st (default "" conn) = false -> st' = st).
Proof.
  simpl. unfold disconnect. split; [|split].
  - intros k. destruct (truthy conn && hasSession st (default "" conn)); [|done].
    split; [|split]; by apply proj_scheduleCleanup.
  - intros id s -> Hne Hget Hact. simpl.
    destruct (String.eqb_spec id ""); [done|]. simpl.
    assert (hasSession st id = true) as ->
      by (apply hasSession_spec; eauto).
    destruct (armed_scheduleCleanup id st s Hget Hact)
      as (s' & h & Hg & _ & _ & Ht & Htm).
    exists h. rewrite Hg. simpl. rewrite Ht. split; [done|].
    by rewrite now_scheduleCleanup in Htm.
  - intros [-> | ->]; [done|]. by rewrite andb_false_r.
Qed.

Lemma disconnect_schedules_witness :
  (∃ h, timeoutId <$> getSession (disconnect (Some "s1") st_created) "s1"
          = Some (Some h) ∧
        timers (disconnect (Some "s1") st_created) !! h
          = Some (mkTimer "s1" 1800000)) ∧
  disconnect (Some "s1") st_marked = st_marked.
Proof.
  destruct (disconnect_schedules (Some "s1") st_created) as (_ & Harm & _).
  destruct (disconnect_schedules (Some "s1") st_marked) as (_ & _ & Hnop).
  split.
  - apply (Harm "s1" (mkSession None 0 None active) eq_refl);
      [discriminate|reflexivity|reflexivity].
  - apply Hnop. by right.
Defined.

Lemma is_Some_of_proj {A B} (f : A -> B) (a b : option A) :
  f <$> a = f <$> b -> is_Some a -> is_Some b.
Proof. destruct a, b; simpl; intros H [x Hx]; try discriminate; eauto. Qed.

(** X23: a resume request for an active session is accepted. The handler
    answers [session_resumed] with that id and nothing else, keeps the id on
    the connection, creates no session, and refreshes the session: it is
    active with [lastActive] now and a timer due 30 minutes later. *)
Theorem resume_session_accepted id uuid conn st :
  id ≠ "" -> hasSession st id = true ->
  let c := fst (resume_session (Some id) uuid conn st) in
  let r := snd (resume_session (Some id) uuid conn st) in
  c = Some id ∧ emitted r = [session_resumed id] ∧
  armed_at id (now st) (final r) ∧
  (∀ k, is_Some (getSession (final r) k) -> is_Some (getSession st k)).
Proof.
  intros Hne Hhas. simpl. unfold resume_session. simpl.
  destruct (String.eqb_spec id ""); [done|]. simpl. rewrite Hhas.
  destruct (refreshSession_active id st Hhas) as [s1 Hs1].
  assert (Hkeys : ∀ k, is_Some (getSession (snd (refreshSession id st)) k) ->
                       is_Some (getSession st k)).
  { intros k. apply (is_Some_of_proj status). by apply proj_refreshSession. }
  assert (Harm : armed_at id (now st) (snd (refreshSession id st))).
  { apply hasSession_spec in Hhas as (s0 & Hget & Hact).
    unfold refreshSession. rewrite Hget, Hact. simpl.
    set (st2 := match timeoutId s0 with Some h0 => _ | None => _ end).
    assert (∃ s2, getSession st2 id = Some s2 ∧ status s2 = active ∧
                  lastActive s2 = now st ∧ now st2 = now st)
      as (s2 & Hget2 & Hact2 & Hla2 & Hnow2).
    { subst st2. destruct (timeoutId s0); eexists; rewrite getSession_put;
        (split; [by rewrite decide_True|done]). }
    rewrite <- Hla2.
    destruct (armed_scheduleCleanup id st2 s2 Hget2 Hact2)
      as (s' & h & ? & ? & ? & ? & Htm).
    exists s', h. rewrite now_scheduleCleanup, Hnow2 in *. done. }
  destruct (refreshSession id st) as [o st1]. simpl in *. subst o. simpl.
  done.
Qed.

Lemma resume_session_accepted_witness :
  emitted (snd (resume_session (Some "s1") "u1" None st_created))
    = [session_resumed "s1"] ∧
  armed_at "s1" 0 (final (snd (resume_session (Some "s1") "u1" None st_created))).
Proof.
  destruct (resume_session_accepted "s1" "u1" None st_created
              ltac:(discriminate) eq_refl) as (_ & Hout & Harm & _).
  split; [exact Hout|exact Harm].
Defined.

(** * One connection, from the adapter on *)

Lemma resumes_known_mono seen seen' out :
  (∀ x, In x seen -> In x seen') ->
  resumes_known seen out -> resumes_known seen' out.
Proof.
  revert seen seen'. induction out as [|e out IH]; intros seen seen' Hsub; [done|].
  destruct e; simpl; try by apply IH.
  - apply IH. intros x [->|Hx]; [by left|right; by apply Hsub].
  - intros [Hin H]. split; [by apply Hsub|by eapply IH].
Qed.

Lemma created_ids_app a b : created_ids (a ++ b) = created_ids a ++ created_ids b.
Proof.
  induction a as [|e a IH]; [done|]. destruct e; simpl; by rewrite ?IH.
Qed.

Lemma resumes_known_app seen a b :
  resumes_known seen a -> resumes_known (created_ids a ++ seen) b ->
  resumes_known seen (a ++ b).
Proof.
  revert seen. induction a as [|e a IH]; intros seen Ha Hb; [done|].
  destruct e; simpl in *; try by apply IH.
  - apply IH; [done|]. eapply resumes_known_mono; [|exact Hb].
    intros x. simpl. rewrite !in_app_iff. simpl. tauto.
  - destruct Ha as [Hin Ha]. split; [done|by apply IH].
Qed.

Lemma quiet_events out :
  (∀ e, In e out -> not_session_event e) ->
  created_ids out = [] ∧ ∀ seen, resumes_known seen out.
Proof.
  induction out as [|e out IH]; intros H; [done|].
  assert (He : not_session_event e) by (apply H; by left).
  destruct IH as [IH1 IH2]; [intros e' He'; apply H; by right|].
  destruct e; simpl in *; try done.
Qed.

Lemma conn_sound_quiet c sessionId out st :
  conn_sound c ->
  (∀ e, In e out -> not_session_event e) ->
  (∀ k, is_Some (getSession st k) -> is_Some (getSession (conn_state c) k)) ->
  conn_sound (mkConn sessionId (conn_out c ++ out) st).
Proof.
  intros [Hres Hkeys] Hq Hsub.
  destruct (quiet_events out Hq) as [Hc Hr]. split; simpl.
  - by apply resumes_known_app.
  - intros k Hk. rewrite created_ids_app, Hc, app_nil_r. auto.
Qed.

Lemma conn_sound_created c sessionId uuid info st :
  conn_sound c ->
  (∀ k, is_Some (getSession st k) ->
        k = uuid ∨ is_Some (getSession (conn_state c) k)) ->
  conn_sound (mkConn sessionId (conn_out c ++ [session_created uuid info]) st).
Proof.
  intros [Hres Hkeys] Hsub. split; simpl.
  - by apply resumes_known_app.
  - intros k Hk. rewrite created_ids_app, in_app_iff. simpl.
    destruct (Hsub k Hk) as [->|H]; [tauto|left; auto].
Qed.

Lemma is_Some_createSession uuid st k :
  is_Some (getSession (snd (createSession uuid st)) k) ->
  k = uuid ∨ is_Some (getSession st k).
Proof.
  simpl. rewrite getSession_put. case_decide; [by left|by right].
Qed.

Lemma is_Some_cleanupSession be k st k' :
  is_Some (getSession (final (cleanupSession be k st)) k') ->
  is_Some (getSession st k').
Proof.
  destruct (getSession st k') eqn:E; [by eauto|].
  rewrite getSession_cleanupSession_None by done. by intros [? ?].
Qed.

Lemma send_prompt_quiet be prompt conn st :
  (∀ e, In e (emitted (send_prompt be prompt conn st)) -> not_session_event e) ∧
  (∀ k, is_Some (getSession (final (send_prompt be prompt conn st)) k) ->
        is_Some (getSession st k)).
Proof.
  unfold send_prompt.
  destruct (negb (truthy conn) || negb (hasSession st (default "" conn))).
  - split; [|done]. by intros e [<-|[]].
  - pose proof (fun k => proj_refreshSession status (default "" conn) st k
                           (fun _ _ => eq_refl) (fun _ _ => eq_refl)) as Hr.
    destruct (refreshSession (default "" conn) st) as [o st1]. simpl in Hr.
    destruct o as [s|].
    + split.
      * intros e H. apply handlePrompt_emitted in H as [H _]. by destruct e.
      * intros k Hk. eapply is_Some_of_proj; [apply Hr|].
        eapply is_Some_of_proj; [|exact Hk].
        by apply (proj_handlePrompt status).
    + split; [by intros e [<-|[]]|].
      intros k Hk. eapply is_Some_of_proj; [apply Hr|done].
Qed.

Lemma conn_sound_dispatch c ev : conn_sound c -> conn_sound (dispatch c ev).
Proof.
  intros Hc. destruct ev; simpl.
  - apply conn_sound_created; [done|]. apply is_Some_createSession.
  - unfold resume_session.
    destruct (truthy data_sessionId &&
              hasSession (conn_state c) (default "" data_sessionId)) eqn:Hcond.
    + apply andb_true_iff in Hcond as [_ Hhas].
      pose proof (fun k => proj_refreshSession status (default "" data_sessionId)
                    (conn_state c) k (fun _ _ => eq_refl) (fun _ _ => eq_refl))
        as Hr.
      destruct (refreshSession_active _ _ Hhas) as [s Hs].
      destruct (refreshSession _ (conn_state c)) as [o st1]. simpl in *.
      subst o. destruct Hc as [Hres Hkeys]. split; simpl.
      * apply resumes_known_app; [done|]. simpl. split; [|done].
        rewrite app_nil_r. apply Hkeys.
        apply hasSession_spec in Hhas as (s0 & -> & _). eauto.
      * intros k Hk. rewrite created_ids_app, app_nil_r. apply Hkeys.
        eapply is_Some_of_proj; [apply Hr|done].
    + apply conn_sound_created; [done|]. apply is_Some_createSession.
  - destruct (send_prompt_quiet be prompt (conn_sessionId c) (conn_state c))
      as [Hq Hk].
    by apply conn_sound_quiet.
  - replace (conn_out c) with (conn_out c ++ []) by apply app_nil_r.
    apply conn_sound_quiet; [done|by intros e []|].
    intros k. unfold disconnect.
    destruct (truthy _ && hasSession _ _); [|done].
    apply (is_Some_of_proj status). by apply proj_scheduleCleanup.
  - destruct (timers (conn_state c) !! h) as [tm|]; [|done].
    apply conn_sound_quiet; [done| |].
    + intros e He.
      destruct (cleanupSession_emitted be (timer_arg tm)
                  (clearTimeout h (conn_state c))) as [[Ho|Ho] _];
        rewrite Ho in He; [done|]. by destruct He as [<-|[]].
    + intros k Hk. by apply is_Some_cleanupSession in Hk.
  - apply conn_sound_quiet; [done| |].
    + intros e He. rewrite cleanupExpiredSessions_sweep_from in He.
      apply sweep_from_emitted in He as [[]|(k & -> & _)]. exact I.
    + intros k Hk. rewrite cleanupExpiredSessions_sweep_from in Hk.
      destruct (getSession (conn_state c) k) eqn:E; [by eauto|].
      rewrite sweep_from_None in Hk by done. by destruct Hk.
  - replace (conn_out c) with (conn_out c ++ []) by apply app_nil_r.
    apply conn_sound_quiet; [done|by intros e []|done].
Qed.

(** X24: a session is resumed only on the connection that created it. The
    adapter builds a new chat service, with an empty registry, for every
    connection; so through any sequence of socket events, timeouts, sweeps
    and clock ticks on a connection, each [session_resumed] it sends names
    an id that an earlier [session_created] on that same connection
    announced. An id issued on another connection is never resumed. *)
Theorem resumed_only_after_created events handle0 t :
  resumes_known []
    (conn_out (fold_left dispatch events (setupSocketHandlers handle0 t))).
Proof.
  assert (H : conn_sound (setupSocketHandlers handle0 t)).
  { split; [exact I|]. intros k [s Hs]. discriminate. }
  revert H. generalize (setupSocketHandlers handle0 t).
  induction events as [|ev events IH]; intros c Hc; [apply Hc|].
  simpl. apply IH. by apply conn_sound_dispatch.
Qed.

Lemma resumed_only_after_created_witness :
  conn_out (fold_left dispatch
              [on_init_session "s1"; on_resume_session (Some "s1") "u1";
               on_resume_session (Some "other") "u2"]
              (setupSocketHandlers 0 0))
    = [session_created "s1" None; session_resumed "s1";
       session_created "u2" None] ∧
  resumes_known []
    [session_created "s1" None; session_resumed "s1"; session_created "u2" None].
Proof.
  split; [reflexivity|].
  exact (resumed_only_after_created
           [on_init_session "s1"; on_resume_session (Some "s1") "u1";
            on_resume_session (Some "other") "u2"] 0 0).
Defined.

(** * The assistant manager *)

Lemma retrieve_each_cached {A} (apis : list (option A)) (a : A) :
  AssistantManager.retrieve_each apis (Some a)
  = map (fun _ => AssistantManager.mkRetrieved (inr a) (Some a) 0) apis.
Proof. induction apis as [|api apis IH]; simpl; [done|by rewrite IH]. Qed.

(** X25: [retrieveAssistant] asks the API until it has an assistant and
    never again. Over successive calls, every call before the first
    successful answer throws and asks the API once (a failure is not
    cached); the call that gets the assistant and all later calls return
    that same assistant, and the later calls do not ask the API, whatever it
    would answer. *)
Theorem retrieveAssistant_caches {A} (pre post : list (option A)) (a : A) :
  Forall (fun api => api = None) pre ->
  let rs := AssistantManager.retrieve_each (pre ++ Some a :: post) None in
  map AssistantManager.result rs
    = replicate (length pre) (inl ApiError)
      ++ replicate (S (length post)) (inr a) ∧
  map AssistantManager.api_calls rs
    = replicate (S (length pre)) 1 ++ replicate (length post) 0.
Proof.
  intros Hpre. simpl. induction Hpre as [|api pre -> _ IH]; simpl.
  - rewrite retrieve_each_cached, !map_map. simpl. split; f_equal.
    + induction post; simpl; by f_equal.
    + induction post; simpl; by f_equal.
  - destruct IH as [IH1 IH2]. simpl in IH2. by rewrite IH1, IH2.
Qed.

Lemma retrieveAssistant_caches_witness :
  map AssistantManager.api_calls
    (AssistantManager.retrieve_each [None; None; Some 7; None; Some 8] None)
    = [1; 1; 1; 0; 0] ∧
  map AssistantManager.result
    (AssistantManager.retrieve_each [None; None; Some 7; None; Some 8] None)
    = [inl ApiError; inl ApiError; inr 7; inr 7; inr 7].
Proof.
  destruct (retrieveAssistant_caches [None; None] [None; Some 8] 7
              ltac:(repeat constructor)) as [Hres Hcalls].
  split; [exact Hcalls|exact Hres].
Defined.

(** * The listing scrapers *)

Section ScraperServiceFacts.
Context {Listing : Type}.
Variable scrapePage : string -> list Listing * bool.

(** The listings of page [i]. *)
Let page (i : nat) : list Listing * bool :=
  scrapePage (pageUrl ScraperService.baseUrl i).

Lemma scrape_while_stops d c acc fuel :
  (∀ i, c ≤ i < c + d -> fst (page i) ≠ [] ∧ snd (page i) = false) ->
  fst (page (c + d)) = [] ∨ snd (page (c + d)) = true ->
  ScraperService.scrape_while scrapePage fuel c acc =
    if Nat.ltb d fuel
    then Some (acc ++ flat_map (fun i => fst (page i)) (seq c (S d)))
    else None.
Proof.
  revert c acc fuel. induction d as [|d IH]; intros c acc fuel Hpre Hlast.
  - destruct fuel as [|fuel]; [done|]. simpl.
    replace (c + 0) with c in Hlast by lia. unfold page in Hlast.
    destruct (scrapePage (pageUrl ScraperService.baseUrl c))
      as [listings sold] eqn:E.
    unfold page. rewrite E. simpl in *. rewrite app_nil_r.
    destruct listings as [|x listings]; simpl.
    + by rewrite app_nil_r.
    + destruct Hlast as [?| ->]; [done|]. done.
  - destruct fuel as [|fuel]; [done|].
    destruct (Hpre c ltac:(lia)) as [Hne Hns]. unfold page in Hne, Hns.
    change (ScraperService.scrape_while scrapePage (S fuel) c acc) with
      (let '(listings, soldOnPage) :=
         scrapePage (pageUrl ScraperService.baseUrl c) in
       if Nat.eqb (length listings) 0 then Some acc
       else if soldOnPage then Some (acc ++ listings)
            else ScraperService.scrape_while scrapePage fuel (S c)
                   (acc ++ listings)).
    destruct (scrapePage (pageUrl ScraperService.baseUrl c))
      as [listings sold] eqn:E.
    simpl in Hne, Hns. subst sold.
    destruct listings as [|x listings]; [done|]. simpl Nat.eqb. cbv iota.
    rewrite IH.
    + change (Nat.ltb (S d) (S fuel)) with (Nat.ltb d fuel).
      destruct (Nat.ltb d fuel); [|done]. f_equal.
      change (seq c (S (S d))) with (c :: seq (S c) (S d)).
      rewrite <- app_assoc. f_equal.
      change (flat_map (fun i => fst (page i)) (c :: seq (S c) (S d)))
        with (fst (page c) ++ flat_map (fun i => fst (page i)) (seq (S c) (S d))).
      unfold page at 2. by rewrite E.
    + intros i Hi. apply Hpre. lia.
    + replace (S c + d) with (c + S d) by lia. exact Hlast.
Qed.

Lemma scrape_while_runs c acc fuel :
  (∀ i, c ≤ i -> fst (page i) ≠ [] ∧ snd (page i) = false) ->
  ScraperService.scrape_while scrapePage fuel c acc = None.
Proof.
  revert c acc. induction fuel as [|fuel IH]; intros c acc Hall; [done|].
  destruct (Hall c ltac:(lia)) as [Hne Hns]. unfold page in Hne, Hns.
  simpl.
  destruct (scrapePage (pageUrl ScraperService.baseUrl c))
    as [listings sold] eqn:E.
  simpl in Hne, Hns. subst sold.
  destruct listings as [|x listings]; [done|]. simpl.
  apply IH. intros i Hi. apply Hall. lia.
Qed.

(** X26: the service's scraper reads the listing pages in order, from page
    1, and stops at the first page that has no listing or that shows a sold
    listing. If that is page [p], it makes exactly [p] page requests and
    returns the listings of pages 1 to [p] in page order (those of page [p]
    included when it is the sold one). *)
Theorem scrapeAllListings_stops p fuel :
  1 ≤ p ->
  (∀ i, 1 ≤ i < p -> fst (page i) ≠ [] ∧ snd (page i) = false) ->
  fst (page p) = [] ∨ snd (page p) = true ->
  ScraperService.scrapeAllListings scrapePage fuel =
    if Nat.leb p fuel
    then Some (flat_map (fun i => fst (page i)) (seq 1 p))
    else None.
Proof.
  intros Hp Hpre Hlast. unfold ScraperService.scrapeAllListings.
  destruct p as [|d]; [lia|].
  rewrite (scrape_while_stops d 1 [] fuel).
  - change (Nat.leb (S d) fuel) with (Nat.ltb d fuel). done.
  - intros i Hi. apply Hpre. lia.
  - exact Hlast.
Qed.

(** X27: the service's scraper has no page limit. On a site where every
    page has a listing and none shows a sold one, the loop is still running
    after any number of page requests. *)
Theorem scrapeAllListings_unbounded fuel :
  (∀ i, 1 ≤ i -> fst (page i) ≠ [] ∧ snd (page i) = false) ->
  ScraperService.scrapeAllListings scrapePage fuel = None.
Proof. intros Hall. by apply scrape_while_runs. Qed.
End ScraperServiceFacts.

Lemma scrapeAllListings_stops_witness :
  let site (url : string) : list nat * bool :=
    if String.eqb url "https://dorisgee.com/mylistings.html" then ([1; 2], false)
    else if String.eqb url "https://dorisgee.com/mylistings.html?_pg=2"
         then ([3], true)
    else ([4], false) in
  ScraperService.scrapeAllListings site 5 = Some [1; 2; 3] ∧
  ScraperService.scrapeAllListings site 1 = None.
Proof.
  intros site.
  assert (Hpre : ∀ i, 1 ≤ i < 2 ->
            fst (site (pageUrl ScraperService.baseUrl i)) ≠ [] ∧
            snd (site (pageUrl ScraperService.baseUrl i)) = false).
  { intros i Hi. assert (i = 1) as -> by lia. by split. }
  split.
  - exact (scrapeAllListings_stops site 2 5 ltac:(lia) Hpre (or_intror eq_refl)).
  - exact (scrapeAllListings_stops site 2 1 ltac:(lia) Hpre (or_intror eq_refl)).
Defined.

Lemma scrapeAllListings_unbounded_witness :
  ScraperService.scrapeAllListings (fun _ : string => ([0], false)) 1000 = None.
Proof.
  apply (scrapeAllListings_unbounded (fun _ : string => ([0], false)) 1000).
  intros i _. by split.
Defined.

(** X28: the manual trigger never reports a count. [POST /api/scrape] reads
    [length] off the object that [runScraper] returns, which has no such
    property. The answer is a 500 exactly when there were listings and the
    upload threw; in every other case it is a 200 whose message interpolates
    [undefined], not the number of listings. *)
Theorem api_scrape_count_undefined listings upload :
  api_scrape listings upload =
  match listings, upload with
  | _ :: _, inl _ => mkScrapeResponse 500 None
  | _, _ => mkScrapeResponse 200 (Some JUndefined)
  end.
Proof.
  unfold api_scrape, ScraperService.runScraper.
  destruct listings as [|x listings]; simpl; [by destruct upload|].
  by destruct upload.
Qed.

Lemma api_scrape_count_undefined_witness :
  api_scrape [JStr "a"; JStr "b"] (inr (JObj [("id", JStr "file_1")]))
    = mkScrapeResponse 200 (Some JUndefined) ∧
  api_scrape [] (inl ApiError) = mkScrapeResponse 200 (Some JUndefined) ∧
  api_scrape [JStr "a"] (inl ApiError) = mkScrapeResponse 500 None.
Proof.
  split; [|split].
  - exact (api_scrape_count_undefined [JStr "a"; JStr "b"]
             (inr (JObj [("id", JStr "file_1")]))).
  - exact (api_scrape_count_undefined [] (inl ApiError)).
  - exact (api_scrape_count_undefined [JStr "a"] (inl ApiError)).
Defined.

Section ScraperIndexFacts.
Context {Data : Type}.
Variable fetchHtml : string -> option string.
Variable extractListingUrls : string -> list string.
Variable extractListingData : string -> string -> Data.

Lemma collect_requests remaining c urls requested :
  ∃ n, n ≤ remaining ∧
    snd (ScraperIndex.collect fetchHtml extractListingUrls
           remaining c urls requested)
    = requested ++ map (pageUrl ScraperIndex.LISTINGS_URL) (seq c n).
Proof.
  revert c urls requested.
  induction remaining as [|remaining IH]; intros c urls requested.
  - exists 0. split; [lia|]. simpl. by rewrite app_nil_r.
  - simpl.
    destruct (truthy (fetchHtml (pageUrl ScraperIndex.LISTINGS_URL c))); simpl;
      [|exists 1; split; [lia|done]].
    destruct (Nat.eqb (length (extractListingUrls _)) 0);
      [exists 1; split; [lia|done]|].
    destruct (IH (S c) (urls ++ extractListingUrls
                (default "" (fetchHtml (pageUrl ScraperIndex.LISTINGS_URL c))))
                (requested ++ [pageUrl ScraperIndex.LISTINGS_URL c]))
      as (n & Hn & ->).
    exists (S n). split; [lia|]. simpl. by rewrite <- app_assoc.
Qed.

(** X29: the batch scraper is bounded by [maxPages] (10 by default). It
    requests the listing pages 1, 2, ... in order and at most [maxPages] of
    them; then it returns one entry per collected listing URL, in the order
    collected, and an entry has no data exactly when fetching its URL failed:
    a listing that cannot be fetched is reported, it does not abort the
    run. *)
Theorem index_scrape_bounded maxPages :
  let collected :=
    fst (ScraperIndex.collect fetchHtml extractListingUrls maxPages 1 [] []) in
  let r := ScraperIndex.scrapeAllListings fetchHtml extractListingUrls
             extractListingData maxPages in
  length (snd r) ≤ maxPages ∧
  snd r = map (pageUrl ScraperIndex.LISTINGS_URL) (seq 1 (length (snd r))) ∧
  map ScraperIndex.entry_url (fst r) = collected ∧
  (∀ e, In e (fst r) ->
     ScraperIndex.entry_body e = None <->
     truthy (fetchHtml (ScraperIndex.entry_url e)) = false).
Proof.
  simpl. unfold ScraperIndex.scrapeAllListings.
  destruct (collect_requests maxPages 1 [] []) as (n & Hn & Hreq).
  destruct (ScraperIndex.collect fetchHtml extractListingUrls maxPages 1 [] [])
    as [urls requested].
  simpl in *. subst requested. rewrite length_map, length_seq.
  split; [done|]. split; [done|]. split.
  - rewrite map_map. unfold ScraperIndex.scrape_listing.
    induction urls as [|u urls IH]; [done|]. simpl. rewrite IH. f_equal.
    by destruct (truthy (fetchHtml u)).
  - intros e He. apply in_map_iff in He as (u & <- & _).
    unfold ScraperIndex.scrape_listing.
    destruct (truthy (fetchHtml u)) eqn:E; simpl; rewrite ?E; split; done.
Qed.
End ScraperIndexFacts.

Lemma fullUrl_http href : String.prefix "http" (ScraperIndex.fullUrl href) = true.
Proof.
  unfold ScraperIndex.fullUrl.
  destruct (String.prefix "http" href) eqn:E; [exact E|reflexivity].
Qed.

(** X30: the URL built for a listing link. The full URL always starts with
    "http"; building it is idempotent; an absolute link is kept as it is;
    and a site-relative link gives the same URL with or without its leading
    slash. *)
Theorem fullUrl_normalises href :
  String.prefix "http" (ScraperIndex.fullUrl href) = true ∧
  ScraperIndex.fullUrl (ScraperIndex.fullUrl href) = ScraperIndex.fullUrl href ∧
  (String.prefix "http" href = true -> ScraperIndex.fullUrl href = href) ∧
  (String.prefix "http" href = false -> String.prefix "/" href = false ->
   ScraperIndex.fullUrl ("/" ++ href) = ScraperIndex.fullUrl href).
Proof.
  split; [apply fullUrl_http|]. split; [|split].
  - unfold ScraperIndex.fullUrl at 1. by rewrite fullUrl_http.
  - intros H. unfold ScraperIndex.fullUrl. by rewrite H.
  - intros Hh Hs. unfold ScraperIndex.fullUrl. rewrite Hh, Hs.
    change (String.prefix "http" ("/" ++ href)) with false.
    change (String.prefix "/" ("/" ++ href)) with (String.prefix "" href).
    by destruct href.
Qed.

Lemma fullUrl_normalises_witness :
  ScraperIndex.fullUrl "https://example.org/a" = "https://example.org/a" ∧
  ScraperIndex.fullUrl "/listing/1" = ScraperIndex.fullUrl "listing/1".
Proof.
  destruct (fullUrl_normalises "https://example.org/a") as (_ & _ & Habs & _).
  destruct (fullUrl_normalises "listing/1") as (_ & _ & _ & Hrel).
  split; [exact (Habs eq_refl)|exact (Hrel eq_refl eq_refl)].
Defined.
